(** * multipledispatch: runtime multiple dispatch on argument classes

    A shallow embedding of [multipledispatch/__init__.py]: the [Signature]
    tuple class with its ordering, the expansion of [Union] annotations
    ([unpack_signatures], [get_signatures]) and the dispatcher class
    [multipledispatch] ([register], [_add_items], [__call__]) whose
    [signature_map] is an insertion-ordered dictionary. *)

From stdpp Require Import base decidable option list sorting strings relations.

(** ** Classes

    The program only uses classes through [issubclass], [isinstance], [==]
    and the class [object]. *)

Class Classes (type : Type) := {
  type_eq_dec :: EqDecision type;
  issubclass : type → type → bool;
  object : type;
}.

(** What Python guarantees of [issubclass] on every class: a class is a
    subclass of itself, and of [object]. *)
Class ClassLaws (type : Type) `{Classes type} : Prop := {
  issubclass_refl (t : type) : issubclass t t = true;
  issubclass_object (t : type) : issubclass t object = true;
}.

(** A proviso, not a law of Python: [issubclass] is transitive. It holds
    of classes related by inheritance alone, where [issubclass] is
    membership in the method resolution order; it fails of abstract base
    classes with a subclass hook or registered virtual subclasses: [list]
    is a subclass of [Sequence] and [Sequence] of [Hashable], yet [list] is
    no subclass of [Hashable]. *)
Class TransitiveSubclass (type : Type) `{Classes type} : Prop :=
  issubclass_trans (a b c : type) :
    issubclass a b = true → issubclass b c = true → issubclass a c = true.

(** Python's [all] over a list of booleans. *)
Definition all (bs : list bool) : bool := forallb id bs.

(** [class Signature(tuple)]: a tuple of classes. *)
Abbreviation Signature := list (only parsing).

Section Dispatch.
Context {type : Type} `{Classes type}.

(** ** The methods of Signature *)

(** [all(map(issubclass, self, other))]: [map] over two iterables stops
    with the shorter one. *)
Definition supercedes (self other : Signature type) : bool :=
  all (zip_with issubclass self other).

(** [Signature.__lt__] *)
Definition Signature_lt (self other : Signature type) : bool :=
  if negb (length self =? length other) then false
  else supercedes self other && negb (supercedes other self).

(** [Signature.__eq__]; classes compare by identity. *)
Definition Signature_eq (self other : Signature type) : bool :=
  if negb (length self =? length other) then false
  else all (zip_with (λ a b, bool_decide (a = b)) self other).

(** ** Annotations

    What [get_type_hints] hands over for one parameter. [unpack_signatures]
    tells three kinds of object apart: a class, a [Union[...]] (of which it
    reads [get_args], whose members are taken to be classes here), and
    anything else (a generic alias such as [List[int]], or a non-type). *)
Inductive annotation : Type :=
| AClass (tp : type)
| AUnion (args : list type)
| AOther (repr : string).

(** A type hint of a parameter is [typing.Any] or an annotation. *)
Inductive hint : Type :=
| HAny
| HAnn (a : annotation).

(** A function object: its name, and for each parameter of
    [inspect.signature(fn).parameters], in order, [type_hints.get(param)]. *)
Record Callable : Type := {
  fn_name : string;
  fn_hints : list (option hint);
}.

(** ** Exceptions: every error of the module is a [TypeError]; the
    constructors tell the messages apart. *)
Inductive exn : Type :=
| TypeError_missing_tp
    (* unpack_signatures() missing 1 required positional argument: 'tp' *)
| TypeError_non_type (tp : annotation)
    (* Non-type annotation: {repr(tp)} *)
| TypeError_multiple_definitions (registered fn : Callable)
    (* Multiple definitions of function for same parameter types *)
| TypeError_no_implementations (args : list type)
    (* No implementations found for args: {repr(args)} *).

Inductive result (A : Type) : Type :=
| Ok (a : A)
| Raise (e : exn).
Global Arguments Ok {A} a.
Global Arguments Raise {A} e.

#[global] Instance result_ret : MRet result := λ A a, Ok a.
#[global] Instance result_bind : MBind result := λ A B f m,
  match m with Ok a => f a | Raise e => Raise e end.

(** ** unpack_signatures *)

(** The first [if]/[elif]/[else] of [unpack_signatures]. *)
Definition unpack_types (tp : annotation) : result (list type) :=
  match tp with
  | AUnion args => Ok args
  | AOther _ => Raise (TypeError_non_type tp)
  | AClass t => Ok [t]
  end.

(** The [for tp in types] loop of a generator whose values are collected
    with [list(...)]: the yields of each round, in order, up to the first
    exception. *)
Fixpoint for_yield {A B : Type} (l : list A) (body : A → result (list B))
    : result (list B) :=
  match l with
  | [] => Ok []
  | x :: l' => ys ← body x; zs ← for_yield l' body; mret (ys ++ zs)
  end.

(** [unpack_signatures(tp, *args)] *)
Fixpoint unpack_signatures (tp : annotation) (args : list annotation)
    : result (list (Signature type)) :=
  types ← unpack_types tp;
  for_yield types (λ tp,
    match args with
    | tp' :: args' =>
        sigs ← unpack_signatures tp' args';
        mret (map (λ sig, tp :: sig) sigs)
    | [] => mret [[tp]]
    end).

(** The call [unpack_signatures( *param_types)]: binding the arguments
    fails when there is none for [tp]. *)
Definition unpack_signatures_star (param_types : list annotation)
    : result (list (Signature type)) :=
  match param_types with
  | [] => Raise TypeError_missing_tp
  | tp :: args => unpack_signatures tp args
  end.

(** ** get_signatures *)

(** One round of the loop over [params]. *)
Definition param_type (h : option hint) : annotation :=
  let param_type := default (HAnn (AClass object)) h in
  match param_type with
  | HAny => AClass object
  | HAnn a => a
  end.

Definition get_signatures (fn : Callable) : result (list (Signature type)) :=
  let param_types := map param_type (fn_hints fn) in
  unpack_signatures_star param_types.

(** ** class multipledispatch

    [signature_map] is a [dict], which keeps its keys in insertion order:
    an association list without repeated keys. The class attribute
    [signature_map = dict()] is never mutated in place ([_add_items] rebinds
    the attribute on the instance), so every instance starts from the empty
    dictionary. *)

Abbreviation dict ty := (list (Signature ty * Callable)) (only parsing).

(** Methods run on the instance: they read and rebind [self.signature_map]
    and may raise. *)
Definition M (A : Type) : Type := dict type → result A * dict type.

#[global] Instance M_ret : MRet M := λ A a d, (Ok a, d).
#[global] Instance M_bind : MBind M := λ A B f m d,
  match m d with
  | (Ok a, d') => f a d'
  | (Raise e, d') => (Raise e, d')
  end.

Definition raise {A : Type} (e : exn) : M A := λ d, (Raise e, d).
Definition lift {A : Type} (r : result A) : M A := λ d, (r, d).
Definition get_signature_map : M (dict type) := λ d, (Ok d, d).
Definition set_signature_map (d' : dict type) : M unit := λ _, (Ok (), d').

(** A [for] loop whose body may raise. *)
Fixpoint for_each {A : Type} (l : list A) (body : A → M unit) : M unit :=
  match l with
  | [] => mret ()
  | x :: l' => _ ← body x; for_each l' body
  end.

(** [d.get(key)]: keys are compared with [Signature.__eq__]. *)
Fixpoint dict_get (d : dict type) (key : Signature type) : option Callable :=
  match d with
  | [] => None
  | (k, v) :: d' => if Signature_eq k key then Some v else dict_get d' key
  end.

(** [d[key] = value]: an existing key keeps its place and takes the new
    value; a new key goes last. *)
Fixpoint dict_setitem (d : dict type) (key : Signature type) (value : Callable)
    : dict type :=
  match d with
  | [] => [(key, value)]
  | (k, v) :: d' =>
      if Signature_eq k key then (k, value) :: d'
      else (k, v) :: dict_setitem d' key value
  end.

(** [dict(items)] *)
Definition dict_of_items (items : list (Signature type * Callable))
    : dict type :=
  fold_left (λ d item, dict_setitem d item.1 item.2) items [].

(** The inner loop of [_add_items], [for i, item in enumerate(items)]:
    the index at which it breaks, if it does. [i] is the index of the head
    of [items]. *)
Fixpoint find_greater (signature : Signature type)
    (items : list (Signature type * Callable)) (i : nat) : option nat :=
  match items with
  | [] => None
  | item :: items' =>
      if Signature_lt signature item.1 then Some i
      else find_greater signature items' (S i)
  end.

(** [items.insert(i, x)] for [0 <= i <= len(items)]. *)
Definition list_insert_at {A : Type} (i : nat) (x : A) (items : list A)
    : list A :=
  take i items ++ x :: drop i items.

(** One round of the outer loop of [_add_items]. *)
Definition add_item (items : list (Signature type * Callable))
    (new_item : Signature type * Callable) : list (Signature type * Callable) :=
  let '(signature, fn) := new_item in
  match find_greater signature items 0 with
  | Some i => list_insert_at i (signature, fn) items
  | None => items ++ [(signature, fn)]
  end.

Definition _add_items (new_items : list (Signature type * Callable)) : M unit :=
  signature_map ← get_signature_map;
  let items := signature_map in
  let items := fold_left add_item new_items items in
  set_signature_map (dict_of_items items).

(** [register]. Function objects are truthy, so the branch of
    [if registered := self.signature_map.get(signature)] is taken exactly
    when the key is present. The method returns [self], the instance whose
    [signature_map] is the state here. *)
Definition register (fn : Callable) : M unit :=
  signatures ← lift (get_signatures fn);
  _ ← for_each signatures (λ signature,
        signature_map ← get_signature_map;
        match dict_get signature_map signature with
        | Some registered =>
            raise (TypeError_multiple_definitions registered fn)
        | None => mret ()
        end);
  _add_items (map (λ signature, (signature, fn)) signatures).

(** [isinstance(arg, tp)]: an argument is represented by its class
    [type(arg)]. *)
Definition isinstance (arg tp : type) : bool := issubclass arg tp.

(** The loop of [__call__]: the function it calls, if any. *)
Fixpoint call_loop (args : list type) (entries : dict type)
    : option Callable :=
  match entries with
  | [] => None
  | (signature, fn) :: entries' =>
      if negb (length signature =? length args) then call_loop args entries'
      else if all (zip_with isinstance args signature) then Some fn
      else call_loop args entries'
  end.

(** [__call__]: the result is the implementation to which the call is
    handed over. *)
Definition __call__ (args : list type) : M Callable :=
  signature_map ← get_signature_map;
  match call_loop args signature_map with
  | Some fn => mret fn
  | None => raise (TypeError_no_implementations args)
  end.

(** [multipledispatch(fn)]: [__init__] registers [fn] on a new instance. *)
Definition multipledispatch (fn : Callable) : result unit * dict type :=
  register fn [].

(** The dictionaries an instance can hold: after [__init__] and any number
    of [register] calls that returned. *)
Inductive reachable : dict type → Prop :=
| reachable_init fn d :
    multipledispatch fn = (Ok (), d) → reachable d
| reachable_register fn d d' :
    reachable d → register fn d = (Ok (), d') → reachable d'.

End Dispatch.

Global Arguments annotation type : clear implicits.
Global Arguments hint type : clear implicits.
Global Arguments Callable type : clear implicits.
Global Arguments exn type : clear implicits.

(** [Dict[Signature, Callable]] *)
Abbreviation dict type := (list (Signature type * Callable type)) (only parsing).

(** ** Notions used in the statements *)

Section Notions.
Context {type : Type} `{Classes type}.

(** The order of the entries is a linearization of [Signature_lt]: an entry
    that is strictly less than another one stands before it. *)
Definition linearization (d : dict type) : Prop :=
  ∀ (i j : nat) (X Y : Signature type),
    d.*1 !! i = Some X → d.*1 !! j = Some Y →
    Signature_lt X Y = true → i < j.

(** An entry matches a call: same arity, and at every position the declared
    class is the class of the argument or one of its superclasses. *)
Definition matches (args : list type) (signature : Signature type) : Prop :=
  length signature = length args ∧
  Forall2 (λ arg tp, issubclass arg tp = true) args signature.

(** The classes a parameter spec stands for: one class, or the members of
    a union. *)
Definition members (a : annotation type) : list type :=
  match a with
  | AClass t => [t]
  | AUnion ts => ts
  | AOther _ => []
  end.

(** A parameter spec as the data model has it: a class, or a union of
    pairwise distinct classes. *)
Definition spec_wf (a : annotation type) : Prop :=
  match a with
  | AClass _ => True
  | AUnion ts => NoDup ts
  | AOther _ => False
  end.

Definition spec_size (a : annotation type) : nat := length (members a).

(** [k1 * ... * kn] *)
Definition product (ks : list nat) : nat := foldr Nat.mul 1 ks.

(** The [k]-th combination of the Cartesian product of the specs, counted
    with the leftmost position as the most significant digit and each
    position in its declared order. *)
Fixpoint combination (specs : list (annotation type)) (k : nat)
    : option (Signature type) :=
  match specs with
  | [] => Some []
  | a :: specs' =>
      let block := product (spec_size <$> specs') in
      t ← members a !! (k `div` block);
      sig ← combination specs' (k `mod` block);
      Some (t :: sig)
  end.

(** The Cartesian product of the specs as a list: the leftmost position
    varies slowest. *)
Fixpoint cartesian (specs : list (annotation type)) : list (Signature type) :=
  match specs with
  | [] => [[]]
  | a :: specs' => t ← members a; (t ::.) <$> cartesian specs'
  end.

(** A parameter without a type hint, or with the hint [Any]. *)
Definition unannotated (h : option (hint type)) : Prop :=
  h = None ∨ h = Some HAny.

(** One successful call of [register]. *)
Definition register_step (d d' : dict type) : Prop :=
  ∃ fn, register fn d = (Ok (), d').

(** From the dictionary [d] on, the key [X] stands before the key [Y]:
    after any further registrations that returned both are keys, [X] at a
    smaller index than [Y], and a call that matches both is handed to an
    entry that matches it and stands at or before [X]. *)
Definition stays_before (d : dict type) (X Y : Signature type) : Prop :=
  ∀ d', rtc register_step d d' →
    ∃ i j, i < j ∧ d'.*1 !! i = Some X ∧ d'.*1 !! j = Some Y ∧
      ∀ args : list type, matches args X → matches args Y →
        ∃ k entry, k ≤ i ∧ d' !! k = Some entry ∧ matches args entry.1 ∧
          __call__ args d' = (Ok entry.2, d').

End Notions.

(** ** A class hierarchy to run the program on

    [object], [int], [bool(int)], [str], and four user classes:
    [Animal], [Dog(Animal)], [Pet] and [Puppy(Dog, Pet)]. *)

Inductive pyclass : Type :=
| Object | Int | Bool | Str | Animal | Dog | Pet | Puppy.

#[global] Instance pyclass_eq_dec : EqDecision pyclass.
Proof. solve_decision. Defined.

(** [cls.__mro__] *)
Definition mro (cls : pyclass) : list pyclass :=
  match cls with
  | Object => [Object]
  | Int => [Int; Object]
  | Bool => [Bool; Int; Object]
  | Str => [Str; Object]
  | Animal => [Animal; Object]
  | Dog => [Dog; Animal; Object]
  | Pet => [Pet; Object]
  | Puppy => [Puppy; Dog; Animal; Pet; Object]
  end.

#[global] Instance pyclass_classes : Classes pyclass := {|
  issubclass a b := bool_decide (b ∈ mro a);
  object := Object;
|}.

Definition def (name : string) (hints : list (option (hint pyclass)))
    : Callable pyclass :=
  {| fn_name := name; fn_hints := hints |}.

Definition cls (c : pyclass) : option (hint pyclass) :=
  Some (HAnn (AClass c)).

(** The functions of the docstring of [multipledispatch]. *)
Definition foo_object_object : Callable pyclass :=
  def "foo_object_object" [cls Object; cls Object].
Definition foo_str_int : Callable pyclass := def "foo_str_int" [cls Str; cls Int].
Definition foo_str_str : Callable pyclass := def "foo_str_str" [cls Str; cls Str].
Definition foo_int_union : Callable pyclass :=
  def "foo_int_union" [cls Int; Some (HAnn (AUnion [Int; Str]))].

(** Running a list of registrations on a new instance, as far as they
    return. *)
Fixpoint registrations (fns : list (Callable pyclass)) (d : dict pyclass)
    : result unit * dict pyclass :=
  match fns with
  | [] => (Ok (), d)
  | fn :: fns' =>
      match register fn d with
      | (Ok _, d') => registrations fns' d'
      | r => r
      end
  end.

(** A function whose second parameter overlaps [foo_str_int]. *)
Definition foo_str_union : Callable pyclass :=
  def "foo_str_union" [cls Str; Some (HAnn (AUnion [Bool; Int]))].

(** Three functions of one parameter. *)
Definition by_animal : Callable pyclass := def "by_animal" [cls Animal].
Definition by_pet : Callable pyclass := def "by_pet" [cls Pet].
Definition by_dog : Callable pyclass := def "by_dog" [cls Dog].

Definition by_int : Callable pyclass := def "by_int" [cls Int].

(** A function of three parameters: the first with the hint [Any], the
    second without a hint. *)
Definition foo_any : Callable pyclass :=
  def "foo_any" [Some HAny; None; cls Int].

(** The dictionary after [by_animal] and [by_pet] are registered. *)
Definition zoo_dict : dict pyclass :=
  (registrations [by_animal; by_pet] []).2.

(** The dictionary after the registrations of the docstring. *)
Definition foo_dict : dict pyclass :=
  (registrations
     [foo_object_object; foo_str_int; foo_str_str; foo_int_union] []).2.

(** ** Abstract base classes

    [object], [collections.abc.Hashable], [collections.abc.Sequence] and
    [list]: all four are classes ([isinstance(tp, type)] holds of them), so
    that [unpack_signatures] takes them as annotations. *)

Inductive abcclass : Type :=
| PyObject | Hashable | Sequence | PyList.

#[global] Instance abcclass_eq_dec : EqDecision abcclass.
Proof. solve_decision. Defined.

(** [issubclass(a, b)] as Python answers it: every class has [__hash__]
    but [list], which sets it to [None]; [list] is registered as a
    [Sequence]. *)
Definition abc_issubclass (a b : abcclass) : bool :=
  match a, b with
  | _, PyObject => true
  | PyObject, Hashable | Hashable, Hashable | Sequence, Hashable => true
  | Sequence, Sequence | PyList, Sequence => true
  | PyList, PyList => true
  | _, _ => false
  end.

#[global] Instance abcclass_classes : Classes abcclass := {|
  issubclass := abc_issubclass;
  object := PyObject;
|}.



(** A second proviso, not a law of Python either: classes that are
    subclasses of each other are one class. It holds of classes related by
    inheritance alone; it fails of abstract base classes: [object] and
    [Hashable] are subclasses of each other. *)
Class ClassAntisym (type : Type) `{Classes type} : Prop :=
  issubclass_antisym (a b : type) :
    issubclass a b = true → issubclass b a = true → a = b.

(** A function with a generic alias as annotation. *)
Definition foo_list : Callable pyclass :=
  def "foo_list" [cls Int; Some (HAnn (AOther "List[int]")); cls Str].

(** The dictionary of the docstring after [by_animal] is registered too. *)
Definition foo_animal_dict : dict pyclass := (register by_animal foo_dict).2.

(** The dictionary of the docstring after [foo_any] is registered too. *)
Definition foo_any_dict : dict pyclass := (register foo_any foo_dict).2.

(** * Properties *)

#[global] Instance pyclass_laws : ClassLaws pyclass.
Proof. split; by intros []. Qed.

#[global] Instance pyclass_transitive : TransitiveSubclass pyclass.
Proof. intros [] [] []; vm_compute; congruence. Qed.

(** ** The ordering of signatures *)

Section Ordering.
Context {type : Type} `{Classes type}.
Implicit Types (A B C self other : Signature type).

Lemma all_zip_with_lookup {X Y : Type} (f : X → Y → bool)
    (l : list X) (k : list Y) :
  all (zip_with f l k) = true ↔
  ∀ i a b, l !! i = Some a → k !! i = Some b → f a b = true.
Proof.
  revert k. induction l as [|x l IH]; intros [|y k].
  - split; [|done]. intros _ i a b Ha. by rewrite lookup_nil in Ha.
  - split; [|done]. intros _ i a b Ha. by rewrite lookup_nil in Ha.
  - split; [|done]. intros _ i a b _ Hb. by rewrite lookup_nil in Hb.
  - change (all (zip_with f (x :: l) (y :: k)))
      with (f x y && all (zip_with f l k)).
    rewrite andb_true_iff, IH. split.
    + intros [Hxy Hrest] [|i] a b Ha Hb; simplify_eq/=; [done|].
      by eapply Hrest.
    + intros Hall. split; [by apply (Hall 0) | intros i; apply (Hall (S i))].
Qed.

Lemma all_zip_with_Forall2 {X Y : Type} (f : X → Y → bool)
    (l : list X) (k : list Y) :
  length l = length k →
  all (zip_with f l k) = true ↔ Forall2 (λ a b, f a b = true) l k.
Proof.
  revert k. induction l as [|x l IH]; intros [|y k] Hlen; simplify_eq/=.
  - split; [constructor | done].
  - change (all (f x y :: zip_with f l k))
      with (f x y && all (zip_with f l k)).
    by rewrite andb_true_iff, IH, Forall2_cons.
Qed.

Lemma supercedes_lookup self other :
  supercedes self other = true ↔
  ∀ i a b, self !! i = Some a → other !! i = Some b → issubclass a b = true.
Proof. apply all_zip_with_lookup. Qed.

Lemma Signature_lt_true self other :
  Signature_lt self other = true ↔
  length self = length other ∧
  supercedes self other = true ∧ supercedes other self = false.
Proof.
  unfold Signature_lt.
  destruct (Nat.eqb_spec (length self) (length other)) as [Hl|Hl]; simpl.
  - rewrite andb_true_iff, negb_true_iff. tauto.
  - split; [done | by intros [? _]].
Qed.

Lemma Signature_eq_true self other :
  Signature_eq self other = true ↔ self = other.
Proof.
  unfold Signature_eq.
  destruct (Nat.eqb_spec (length self) (length other)) as [Hl|Hl]; simpl.
  - rewrite all_zip_with_Forall2 by done. split.
    + intros HF. apply list_eq_Forall2. eapply Forall2_impl; [exact HF|].
      intros a b. by rewrite bool_decide_eq_true.
    + intros ->. clear Hl. induction other; constructor; try done.
      by apply bool_decide_eq_true.
  - split; [done | by intros ->].
Qed.

Lemma supercedes_trans `{!TransitiveSubclass type} A B C :
  length A = length B →
  supercedes A B = true → supercedes B C = true → supercedes A C = true.
Proof.
  rewrite !supercedes_lookup. intros Hlen HAB HBC i a c Ha Hc.
  destruct (B !! i) as [b|] eqn:Hb.
  - apply (issubclass_trans a b c); eauto.
  - apply lookup_ge_None in Hb. apply lookup_lt_Some in Ha. lia.
Qed.

Lemma Signature_lt_irrefl A : Signature_lt A A = false.
Proof.
  unfold Signature_lt. rewrite Nat.eqb_refl. simpl. by destruct (supercedes A A).
Qed.

Lemma Signature_lt_asym A B :
  Signature_lt A B = true → Signature_lt B A = false.
Proof.
  intros (_ & HAB & HBA)%Signature_lt_true.
  destruct (Signature_lt B A) eqn:Hlt; [|done].
  apply Signature_lt_true in Hlt as (_ & _ & ?). congruence.
Qed.

Lemma Signature_lt_trans `{!TransitiveSubclass type} A B C :
  Signature_lt A B = true → Signature_lt B C = true → Signature_lt A C = true.
Proof.
  intros (HlAB & HAB & HBA)%Signature_lt_true (HlBC & HBC & HCB)%Signature_lt_true.
  apply Signature_lt_true. split; [congruence|]. split.
  - by eapply supercedes_trans.
  - destruct (supercedes C A) eqn:HCA; [|done].
    rewrite <- HCB. symmetry. eapply (supercedes_trans C A B); [congruence|done..].
Qed.

(** C4, as the code has it. [Signature_lt] is irreflexive, and two
    signatures (of the same arity) are never each less than the other, on
    all classes; [A < B] and [B < C] give [A < C] provided [issubclass] is
    transitive on the classes in use. *)
Theorem Signature_lt_strict_partial_order :
  (∀ A, Signature_lt A A = false) ∧
  (∀ A B, length A = length B →
     ¬ (Signature_lt A B = true ∧ Signature_lt B A = true)) ∧
  (TransitiveSubclass type →
   ∀ A B C, Signature_lt A B = true → Signature_lt B C = true →
     Signature_lt A C = true).
Proof.
  split; [apply Signature_lt_irrefl|]. split.
  - intros A B _ [HAB HBA]. apply Signature_lt_asym in HAB. congruence.
  - intros Htrans. apply Signature_lt_trans.
Qed.

(** C6, as the code has it. [supercedes] is a total function that compares
    the positions the two signatures share: it is true exactly when, at every
    index present in both, the class of [A] is a subclass of the class of
    [B]. For equal arities that is the pointwise subclass test; the arity
    guard is the one of [Signature_lt], which is false whenever the arities
    differ. *)
Theorem supercedes_common_positions A B :
  (supercedes A B = true ↔
     ∀ i a b, A !! i = Some a → B !! i = Some b → issubclass a b = true) ∧
  (length A = length B →
     (supercedes A B = true ↔ Forall2 (λ a b, issubclass a b = true) A B)) ∧
  (length A ≠ length B → Signature_lt A B = false).
Proof.
  split; [apply supercedes_lookup|]. split.
  - intros Hlen. by apply all_zip_with_Forall2.
  - intros Hlen. unfold Signature_lt.
    by destruct (Nat.eqb_spec (length A) (length B)).
Qed.

End Ordering.

(** C4 at work: [(bool, str) < (int, str) < (object, str)]. *)
Lemma Signature_lt_strict_partial_order_witness :
  Signature_lt [Bool; Str] [Object; Str] = true.
Proof.
  apply (proj2 (proj2 Signature_lt_strict_partial_order) pyclass_transitive
           [Bool; Str] [Int; Str] [Object; Str]); reflexivity.
Defined.

(** C4 fails as stated on classes the code accepts: [(list,)] is less than
    [(Sequence,)], which is less than [(Hashable,)], and [(list,)] is not
    less than [(Hashable,)]. *)
Lemma Signature_lt_transitive_counterexample :
  Signature_lt [PyList] [Sequence] = true ∧
  Signature_lt [Sequence] [Hashable] = true ∧
  Signature_lt [PyList] [Hashable] = false.
Proof. by vm_compute. Qed.

(** C6 fails as stated: [(int,)] and [(int, str)] have different arities,
    and [supercedes] answers [True]. *)
Lemma supercedes_arity_counterexample :
  ¬ (∀ A B : Signature pyclass, length A ≠ length B → supercedes A B = false).
Proof. intros Hclaim. by specialize (Hclaim [Int] [Int; Str] ltac:(done)). Qed.

(** ** Resolution *)

Section Resolution.
Context {type : Type} `{Classes type}.
Implicit Types (d : dict type) (args : list type) (fn : Callable type).

(** The two tests of the loop of [__call__] decide [matches]. *)
Lemma call_test_matches args (signature : Signature type) :
  negb (length signature =? length args) = false ∧
  all (zip_with isinstance args signature) = true ↔ matches args signature.
Proof.
  unfold matches. rewrite negb_false_iff, Nat.eqb_eq. split.
  - intros [Hlen Hall]. split; [done|]. by apply all_zip_with_Forall2 in Hall.
  - intros [Hlen Hall]. split; [done|]. by apply all_zip_with_Forall2.
Qed.

Lemma call_loop_first_match args d :
  match call_loop args d with
  | Some fn =>
      ∃ i signature, d !! i = Some (signature, fn) ∧ matches args signature ∧
        ∀ j entry, j < i → d !! j = Some entry → ¬ matches args entry.1
  | None => ∀ entry, entry ∈ d → ¬ matches args entry.1
  end.
Proof.
  induction d as [|[signature fn] d IH]; simpl.
  - by intros entry ?%elem_of_nil.
  - pose proof (call_test_matches args signature) as Htest.
    assert (call_loop args d = call_loop args d →
            ¬ matches args signature →
            match call_loop args d with
            | Some fn0 =>
                ∃ i signature0, ((signature, fn) :: d) !! i = Some (signature0, fn0) ∧
                  matches args signature0 ∧
                  ∀ j entry, j < i → ((signature, fn) :: d) !! j = Some entry →
                    ¬ matches args entry.1
            | None => ∀ entry, entry ∈ (signature, fn) :: d → ¬ matches args entry.1
            end) as Hskip.
    { intros _ Hno. destruct (call_loop args d) as [fn'|].
      - destruct IH as (i & s & Hi & Hm & Hfirst). exists (S i), s.
        split; [done|]. split; [done|]. intros [|j] entry Hj Hentry; simplify_eq/=.
        + done.
        + eapply Hfirst; [|done]. lia.
      - intros entry Hin. apply elem_of_cons in Hin as [->|Hin]; [done | by apply IH]. }
    destruct (negb (length signature =? length args)) eqn:Hlen.
    { apply Hskip; [done|]. rewrite <- Htest. intros [? _]; congruence. }
    destruct (all (zip_with isinstance args signature)) eqn:Hall.
    + exists 0, signature. split; [done|]. split; [by apply Htest|]. intros; lia.
    + apply Hskip; [done|]. rewrite <- Htest. intros [_ ?]; congruence.
Qed.

(** C1. [__call__] hands the call to the first entry, in the order of the
    dictionary, whose signature has the arity of the arguments and whose
    class at every position is the class of the argument or a superclass of
    it; when no entry is such, it raises the [TypeError] that carries the
    arguments; in both cases the dictionary is left as it was. *)
Theorem call_first_match args d :
  (∃ i signature fn,
      d !! i = Some (signature, fn) ∧ matches args signature ∧
      (∀ j entry, j < i → d !! j = Some entry → ¬ matches args entry.1) ∧
      __call__ args d = (Ok fn, d)) ∨
  ((∀ entry, entry ∈ d → ¬ matches args entry.1) ∧
   __call__ args d = (Raise (TypeError_no_implementations args), d)).
Proof.
  pose proof (call_loop_first_match args d) as Hloop.
  unfold __call__, mbind, M_bind, get_signature_map. simpl.
  destruct (call_loop args d) as [fn|].
  - left. destruct Hloop as (i & s & Hi & Hm & Hfirst). by exists i, s, fn.
  - by right.
Qed.

End Resolution.

(** ** Registration *)

Section Registration.
Context {type : Type} `{Classes type}.
Implicit Types (d : dict type) (fn : Callable type) (key signature : Signature type).

Lemma dict_get_Some d key v : dict_get d key = Some v → (key, v) ∈ d.
Proof.
  induction d as [|[k v'] d IH]; simpl; [done|].
  destruct (Signature_eq k key) eqn:Heq.
  - apply Signature_eq_true in Heq as ->. intros [= ->]. apply elem_of_cons. by left.
  - intros Hget. apply elem_of_cons. right. by apply IH.
Qed.

Lemma dict_get_None d key : dict_get d key = None ↔ key ∉ d.*1.
Proof.
  induction d as [|[k v'] d IH]; simpl.
  - split; [intros _ Hin; by apply elem_of_nil in Hin | done].
  - rewrite not_elem_of_cons, <- IH. destruct (Signature_eq k key) eqn:Heq.
    + apply Signature_eq_true in Heq as ->. split; [done | by intros [? _]].
    + split; [|by intros [_ ?]]. intros Hget. split; [|done]. intros ->.
      assert (Signature_eq k k = true) by by apply Signature_eq_true.
      congruence.
Qed.

(** The loop of [register] over the new signatures: it raises at the first
    one that is a key of the dictionary. *)
Lemma register_check signatures fn d :
  let check := λ signature,
    signature_map ← get_signature_map;
    match dict_get signature_map signature with
    | Some registered => raise (TypeError_multiple_definitions registered fn)
    | None => mret ()
    end in
  (∃ signature registered,
      signature ∈ signatures ∧ dict_get d signature = Some registered ∧
      for_each signatures check d =
        (Raise (TypeError_multiple_definitions registered fn), d)) ∨
  ((∀ signature, signature ∈ signatures → dict_get d signature = None) ∧
   for_each signatures check d = (Ok (), d)).
Proof.
  intros check. induction signatures as [|s signatures IH]; simpl.
  - right. split; [|done]. intros s Hin. by apply elem_of_nil in Hin.
  - unfold mbind, M_bind. unfold check at 1 3. unfold mbind, M_bind, get_signature_map.
    destruct (dict_get d s) as [registered|] eqn:Hget; simpl.
    + left. exists s, registered. split; [apply elem_of_cons; by left | done].
    + destruct IH as [(s' & r & Hin & Hget' & Hrun)|[Hnone Hrun]].
      * left. exists s', r. split; [apply elem_of_cons; by right | done].
      * right. split; [|done]. intros s' Hin.
        apply elem_of_cons in Hin as [->|Hin]; [done | by apply Hnone].
Qed.

Lemma register_unfold fn d :
  register fn d =
  match get_signatures fn with
  | Raise e => (Raise e, d)
  | Ok signatures =>
      match for_each signatures (λ signature,
              signature_map ← get_signature_map;
              match dict_get signature_map signature with
              | Some registered =>
                  raise (TypeError_multiple_definitions registered fn)
              | None => mret ()
              end) d with
      | (Ok _, d') => _add_items (map (λ signature, (signature, fn)) signatures) d'
      | (Raise e, d') => (Raise e, d')
      end
  end.
Proof. unfold register, mbind at 1, M_bind, lift. by destruct (get_signatures fn). Qed.

Lemma register_run fn d signatures :
  get_signatures fn = Ok signatures →
  (∃ conflicting registered,
      conflicting ∈ signatures ∧ dict_get d conflicting = Some registered ∧
      register fn d = (Raise (TypeError_multiple_definitions registered fn), d)) ∨
  ((∀ signature, signature ∈ signatures → signature ∉ d.*1) ∧
   register fn d =
     (Ok (), dict_of_items
               (fold_left add_item (map (λ signature, (signature, fn)) signatures) d))).
Proof.
  intros Hsigs. rewrite register_unfold, Hsigs.
  destruct (register_check signatures fn d) as [(s & r & Hin & Hget & Hrun)|[Hnone Hrun]];
    simpl in Hrun; rewrite Hrun.
  - left. by exists s, r.
  - right. split; [|done]. intros s Hin. by apply dict_get_None, Hnone.
Qed.

Lemma register_raise fn d e :
  get_signatures fn = Raise e → register fn d = (Raise e, d).
Proof.
  intros Hsigs. by rewrite register_unfold, Hsigs.
Qed.

(** A [register] call that returns has run [_add_items] on signatures that
    are not keys of the dictionary. *)
Lemma register_Ok fn d d' :
  register fn d = (Ok (), d') →
  ∃ signatures,
    get_signatures fn = Ok signatures ∧
    (∀ signature, signature ∈ signatures → signature ∉ d.*1) ∧
    d' = dict_of_items
           (fold_left add_item (map (λ signature, (signature, fn)) signatures) d).
Proof.
  intros Hrun. destruct (get_signatures fn) as [signatures|e] eqn:Hsigs.
  - exists signatures. split; [done|].
    destruct (register_run fn d signatures Hsigs) as [(s & r & _ & _ & Hr)|[Hnone Hr]];
      rewrite Hr in Hrun; by simplify_eq.
  - rewrite (register_raise fn d e Hsigs) in Hrun. by simplify_eq.
Qed.

(** C2. When one of the signatures a function expands to is already a key
    of the dictionary, [register] raises the [TypeError] that names the
    function registered under such a signature and the new function, and
    the dictionary is left exactly as it was: none of the new signatures is
    inserted. *)
Theorem register_conflict fn d signatures signature :
  get_signatures fn = Ok signatures →
  signature ∈ signatures →
  signature ∈ d.*1 →
  ∃ conflicting registered,
    conflicting ∈ signatures ∧ (conflicting, registered) ∈ d ∧
    register fn d = (Raise (TypeError_multiple_definitions registered fn), d).
Proof.
  intros Hsigs Hin Hkey.
  destruct (register_run fn d signatures Hsigs) as [(s & r & Hs & Hget & Hr)|[Hnone _]].
  - exists s, r. split; [done|]. split; [by apply dict_get_Some | done].
  - exfalso. by apply (Hnone signature).
Qed.

End Registration.

(** ** Expansion of unions *)

Section Expansion.
Context {type : Type} `{Classes type}.
Implicit Types (a tp : annotation type) (args specs : list (annotation type)).
Implicit Types (sig : Signature type) (sigs : list (Signature type)).

Lemma result_bind_Ok {A B : Type} (m : result (type := type) A)
    (f : A → result (type := type) B) (y : B) :
  (x ← m; f x) = Ok y → ∃ x, m = Ok x ∧ f x = Ok y.
Proof. destruct m as [x|e]; [by exists x | done]. Qed.

Lemma for_yield_Ok_inv {A B : Type} (l : list A)
    (body : A → result (type := type) (list B)) ys y :
  for_yield l body = Ok ys → y ∈ ys →
  ∃ x zs, x ∈ l ∧ body x = Ok zs ∧ y ∈ zs.
Proof.
  revert ys. induction l as [|x l IH]; simpl; intros ys Hrun Hy.
  - simplify_eq. by apply elem_of_nil in Hy.
  - apply result_bind_Ok in Hrun as (zs & Hx & Hrun).
    apply result_bind_Ok in Hrun as (ys' & Hl & Hrun). simplify_eq/=.
    injection Hrun as <-.
    apply elem_of_app in Hy as [Hy|Hy].
    + exists x, zs. split; [apply elem_of_cons; by left | done].
    + destruct (IH ys' Hl Hy) as (x' & zs' & Hin & Hbody & Hy').
      exists x', zs'. split; [apply elem_of_cons; by right | done].
Qed.

Lemma for_yield_total {A B : Type} (l : list A)
    (body : A → result (type := type) (list B)) (g : A → list B) :
  (∀ x, x ∈ l → body x = Ok (g x)) → for_yield l body = Ok (l ≫= g).
Proof.
  induction l as [|x l IH]; intros Hbody; simpl; [done|].
  rewrite Hbody by (apply elem_of_cons; by left). simpl.
  rewrite IH; [done|]. intros x' Hin. apply Hbody, elem_of_cons. by right.
Qed.

(** Every signature that [unpack_signatures] yields takes, at each
    position, one of the classes of the annotation at that position. *)
Lemma unpack_signatures_Ok_inv a args sigs sig :
  unpack_signatures a args = Ok sigs → sig ∈ sigs →
  Forall2 (λ t b, ∃ ts, unpack_types b = Ok ts ∧ t ∈ ts) sig (a :: args).
Proof.
  revert a sigs sig. induction args as [|a' args IH]; intros a sigs sig Hrun Hsig.
  - simpl in Hrun. apply result_bind_Ok in Hrun as (types & Htypes & Hrun).
    destruct (for_yield_Ok_inv _ _ _ _ Hrun Hsig) as (t & zs & Ht & Hbody & Hzs).
    injection Hbody as <-. apply list_elem_of_singleton in Hzs as ->.
    repeat constructor. by exists types.
  - simpl in Hrun. apply result_bind_Ok in Hrun as (types & Htypes & Hrun).
    destruct (for_yield_Ok_inv _ _ _ _ Hrun Hsig) as (t & zs & Ht & Hbody & Hzs).
    apply result_bind_Ok in Hbody as (sigs' & Hrec & Hbody).
    injection Hbody as <-. apply list_elem_of_fmap in Hzs as (sig' & -> & Hsig').
    constructor; [by exists types | by eapply IH].
Qed.

Lemma unpack_types_wf a : spec_wf a → unpack_types a = Ok (members a).
Proof. by destruct a. Qed.

Lemma members_NoDup a : spec_wf a → NoDup (members a).
Proof. destruct a; simpl; [intros _; apply NoDup_singleton | done | done]. Qed.

(** On well-formed specs [unpack_signatures] yields the Cartesian
    product. *)
Lemma unpack_signatures_cartesian a args :
  Forall spec_wf (a :: args) →
  unpack_signatures a args = Ok (cartesian (a :: args)).
Proof.
  revert a. induction args as [|a' args IH]; intros a [Ha Hargs]%Forall_cons; simpl.
  - rewrite unpack_types_wf by done. simpl. by apply for_yield_total.
  - rewrite unpack_types_wf by done. simpl. apply for_yield_total.
    intros t _. by rewrite IH.
Qed.

(** The blocks of a product: every class of the first position in front of
    every signature of the remaining positions. *)
Lemma blocks_length (ts : list type) (sigs : list (list type)) :
  length (t ← ts; (t ::.) <$> sigs) = length ts * length sigs.
Proof.
  induction ts as [|t ts IH]; csimpl; [done|].
  by rewrite length_app, length_fmap, IH.
Qed.

Lemma blocks_lookup (ts : list type) (sigs : list (list type)) k :
  k < length ts * length sigs →
  (t ← ts; (t ::.) <$> sigs) !! k =
  (t ← ts !! (k `div` length sigs); sig ← sigs !! (k `mod` length sigs); Some (t :: sig)).
Proof.
  revert k. induction ts as [|t ts IH]; intros k Hk; csimpl in *; [lia|].
  assert (length sigs ≠ 0) as Hm by lia.
  destruct (decide (k < length sigs)) as [Hlt|Hge].
  - rewrite lookup_app_l by by rewrite length_fmap.
    rewrite Nat.div_small, Nat.mod_small by done. simpl.
    rewrite list_lookup_fmap. by destruct (sigs !! k).
  - assert (k `div` length sigs = S ((k - length sigs) `div` length sigs)) as ->.
    { replace k with ((k - length sigs) + 1 * length sigs) at 1 by lia.
      rewrite Nat.div_add by done. lia. }
    assert (k `mod` length sigs = (k - length sigs) `mod` length sigs) as ->.
    { replace k with ((k - length sigs) + 1 * length sigs) at 1 by lia.
      by rewrite Nat.Div0.mod_add. }
    rewrite lookup_app_r by (rewrite length_fmap; lia). rewrite length_fmap.
    by rewrite IH by lia.
Qed.

Lemma cartesian_length specs :
  length (cartesian specs) = product (spec_size <$> specs).
Proof.
  induction specs as [|a specs IH]; csimpl; [done|].
  by rewrite blocks_length, IH.
Qed.

Lemma cartesian_elem specs sig :
  sig ∈ cartesian specs ↔ Forall2 (λ t a, t ∈ members a) sig specs.
Proof.
  revert sig. induction specs as [|a specs IH]; intros sig; simpl.
  - rewrite list_elem_of_singleton. split; [intros ->; constructor | by intros ->%Forall2_nil_inv_r].
  - rewrite list_elem_of_bind. split.
    + intros (t & Hsig & Ht). apply list_elem_of_fmap in Hsig as (sig' & -> & Hsig').
      constructor; [done | by apply IH].
    + intros Hall. apply Forall2_cons_inv_r in Hall as (t & sig' & Ht & Hsig' & ->).
      exists t. split; [|done]. apply list_elem_of_fmap. exists sig'. by rewrite IH.
Qed.

Lemma cartesian_NoDup specs : Forall spec_wf specs → NoDup (cartesian specs).
Proof.
  induction 1 as [|a specs Ha Hspecs IH]; simpl; [apply NoDup_singleton|].
  apply NoDup_bind; [| |by apply members_NoDup].
  - intros t1 t2 sig _ _ Hin1 Hin2.
    apply list_elem_of_fmap in Hin1 as (s1 & -> & _).
    apply list_elem_of_fmap in Hin2 as (s2 & Heq & _). by simplify_eq.
  - intros t _. apply NoDup_fmap_2; [|done]. by intros s1 s2 [=].
Qed.

Lemma cartesian_lookup specs k :
  k < length (cartesian specs) → cartesian specs !! k = combination specs k.
Proof.
  revert k. induction specs as [|a specs IH]; intros k Hk; csimpl in *.
  - by replace k with 0 by lia.
  - rewrite blocks_length in Hk. rewrite blocks_lookup by done.
    rewrite <- cartesian_length.
    destruct (members a !! (k `div` length (cartesian specs))) as [t|]; [simpl|done].
    rewrite IH; [done|]. apply Nat.mod_upper_bound. lia.
Qed.

(** C5, on the lists that [unpack_signatures] can be called on. For
    [n >= 1] well-formed parameter specs of sizes [k1, ..., kn], the
    expansion yields exactly [k1 * ... * kn] signatures, pairwise distinct,
    each of arity [n], that are exactly the combinations of one class per
    position, and the [k]-th of them is the [k]-th combination of the
    Cartesian product counted with the leftmost position most significant
    and every position in its declared order. *)
Theorem unpack_signatures_product specs :
  specs ≠ [] → Forall spec_wf specs →
  ∃ sigs,
    unpack_signatures_star specs = Ok sigs ∧
    length sigs = product (spec_size <$> specs) ∧
    NoDup sigs ∧
    Forall (λ sig, length sig = length specs) sigs ∧
    (∀ sig, sig ∈ sigs ↔ Forall2 (λ t a, t ∈ members a) sig specs) ∧
    (∀ k, k < length sigs → sigs !! k = combination specs k).
Proof.
  intros Hne Hwf. destruct specs as [|a args]; [done|].
  exists (cartesian (a :: args)). split; [by apply unpack_signatures_cartesian|].
  split; [apply cartesian_length|]. split; [by apply cartesian_NoDup|].
  split; [|split; [apply cartesian_elem | apply cartesian_lookup]].
  apply Forall_forall. intros sig Hsig. apply cartesian_elem in Hsig.
  by apply Forall2_length in Hsig.
Qed.

End Expansion.

(** C5 at work: [(int, Union[int, str], Union[bool, str])] expands to four
    signatures in the order of the product. *)
Lemma unpack_signatures_product_witness :
  ∃ sigs,
    unpack_signatures_star [AClass Int; AUnion [Int; Str]; AUnion [Bool; Str]] = Ok sigs ∧
    length sigs = 4 ∧
    sigs !! 1 = Some [Int; Int; Str] ∧ sigs !! 2 = Some [Int; Str; Bool].
Proof.
  destruct (unpack_signatures_product
              [AClass Int; AUnion [Int; Str]; AUnion [Bool; Str]])
    as (sigs & Hrun & Hlen & _ & _ & _ & Hlookup).
  - done.
  - repeat first [apply Forall_nil_2 | apply Forall_cons_2]; simpl;
      first [exact I | apply (bool_decide_unpack _); exact I].
  - exists sigs. split; [done|]. split; [done|].
    split; (rewrite Hlookup; [done | rewrite Hlen; vm_compute; lia]).
Defined.

(** C5 fails as stated for [n = 0]: the product of no sizes is 1, the
    single combination being the empty signature, but the call binds no
    argument to [tp] and raises. *)
Lemma unpack_signatures_empty_counterexample :
  product (spec_size <$> ([] : list (annotation pyclass))) = 1 ∧
  unpack_signatures_star ([] : list (annotation pyclass)) = Raise TypeError_missing_tp ∧
  ¬ ∃ sigs, unpack_signatures_star ([] : list (annotation pyclass)) = Ok sigs ∧
            length sigs = product (spec_size <$> ([] : list (annotation pyclass))).
Proof. split; [done|]. split; [done|]. by intros (sigs & Hrun & _). Qed.

(** ** The list of items and the dictionary built from it *)

Section Items.
Context {type : Type} `{Classes type}.
Implicit Types (d items acc : dict type) (fn : Callable type).
Implicit Types (key signature : Signature type).

(** The inner loop of [_add_items] stops at the first item the new
    signature is strictly less than. *)
Lemma find_greater_spec signature items i :
  match find_greater signature items i with
  | Some j =>
      ∃ before item after,
        items = before ++ item :: after ∧ j = i + length before ∧
        Forall (λ e, Signature_lt signature e.1 = false) before ∧
        Signature_lt signature item.1 = true
  | None => Forall (λ e, Signature_lt signature e.1 = false) items
  end.
Proof.
  revert i. induction items as [|item items IH]; intros i; simpl; [constructor|].
  destruct (Signature_lt signature item.1) eqn:Hlt.
  - exists [], item, items. split; [done|]. split; [simpl; lia|]. by split.
  - specialize (IH (S i)). destruct (find_greater signature items (S i)) as [j|].
    + destruct IH as (before & item' & after & -> & -> & Hbefore & Hlt').
      exists (item :: before), item', after.
      split; [done|]. split; [simpl; lia|]. split; [by constructor | done].
    + by constructor.
Qed.

(** One round of [_add_items]: the new item goes immediately before the
    first item its signature is strictly less than, or last when there is
    none; the items that were there keep their order. *)
Lemma add_item_split items signature fn :
  ∃ before after,
    items = before ++ after ∧
    add_item items (signature, fn) = before ++ (signature, fn) :: after ∧
    Forall (λ e, Signature_lt signature e.1 = false) before ∧
    match after with
    | [] => True
    | item :: _ => Signature_lt signature item.1 = true
    end.
Proof.
  unfold add_item. pose proof (find_greater_spec signature items 0) as Hfind.
  destruct (find_greater signature items 0) as [j|].
  - destruct Hfind as (before & item & after & -> & -> & Hbefore & Hlt).
    exists before, (item :: after). split; [done|]. split; [|done].
    unfold list_insert_at. simpl. by rewrite take_app_length, drop_app_length.
  - exists items, []. by rewrite app_nil_r.
Qed.

Lemma dict_setitem_new d key value :
  key ∉ d.*1 → dict_setitem d key value = d ++ [(key, value)].
Proof.
  induction d as [|[k v] d IH]; simpl; [done|].
  intros [Hne Hnotin]%not_elem_of_cons.
  destruct (Signature_eq k key) eqn:Heq.
  - apply Signature_eq_true in Heq. congruence.
  - by rewrite IH.
Qed.

Lemma dict_setitem_keys d key value :
  (dict_setitem d key value).*1 = if decide (key ∈ d.*1) then d.*1 else d.*1 ++ [key].
Proof.
  case_decide as Hin; [|by rewrite dict_setitem_new, fmap_app].
  induction d as [|[k v] d IH]; simpl in *; [by apply elem_of_nil in Hin|].
  destruct (Signature_eq k key) eqn:Heq; [done|]. simpl. f_equal. apply IH.
  apply elem_of_cons in Hin as [->|Hin]; [|done].
  assert (Signature_eq k k = true) by by apply Signature_eq_true. congruence.
Qed.

(** [dict(items)] leaves a list without repeated keys as it is. *)
Lemma dict_update_NoDup acc items :
  NoDup (acc ++ items).*1 →
  fold_left (λ d item, dict_setitem d item.1 item.2) items acc = acc ++ items.
Proof.
  revert acc. induction items as [|[k v] items IH]; intros acc Hnodup; simpl.
  - by rewrite app_nil_r.
  - rewrite dict_setitem_new.
    + rewrite IH; rewrite <- app_assoc; done.
    + rewrite fmap_app in Hnodup. apply NoDup_app in Hnodup as (_ & Hdisj & _).
      intros Hin. apply (Hdisj k Hin). simpl. apply elem_of_cons. by left.
Qed.

Lemma dict_update_keys_NoDup acc items :
  NoDup acc.*1 →
  NoDup (fold_left (λ d item, dict_setitem d item.1 item.2) items acc).*1.
Proof.
  revert acc. induction items as [|[k v] items IH]; intros acc Hnodup; simpl; [done|].
  apply IH. rewrite dict_setitem_keys. case_decide as Hin; [done|].
  apply NoDup_app. split; [done|]. split; [|apply NoDup_singleton].
  intros k' Hk' ->%list_elem_of_singleton. done.
Qed.

Lemma dict_update_keys_elem acc items key :
  key ∈ (fold_left (λ d item, dict_setitem d item.1 item.2) items acc).*1 ↔
  key ∈ acc.*1 ∨ key ∈ items.*1.
Proof.
  revert acc. induction items as [|[k v] items IH]; intros acc; simpl.
  - rewrite elem_of_nil. tauto.
  - rewrite IH, dict_setitem_keys, elem_of_cons. case_decide as Hin.
    + split; [tauto|]. intros [?|[->|?]]; tauto.
    + rewrite elem_of_app, list_elem_of_singleton. tauto.
Qed.

Lemma filter_all {A : Type} (P : A → Prop) `{!∀ x, Decision (P x)} (l : list A) :
  Forall P l → filter P l = l.
Proof.
  induction 1 as [|x l Hx Hl IH]; [done|]. by rewrite filter_cons_True, IH.
Qed.

(** Restricting to a set of keys commutes with building the dictionary. *)
Lemma filter_dict_setitem (P : Signature type → Prop) `{!∀ k, Decision (P k)}
    d key value :
  filter (λ e, P e.1) (dict_setitem d key value) =
  if decide (P key) then dict_setitem (filter (λ e, P e.1) d) key value
  else filter (λ e, P e.1) d.
Proof.
  induction d as [|[k v] d IH]; simpl.
  - case_decide; [by rewrite filter_cons_True | by rewrite filter_cons_False].
  - destruct (Signature_eq k key) eqn:Heq.
    + apply Signature_eq_true in Heq as ->. case_decide as HP.
      * rewrite !filter_cons_True by done. simpl.
        assert (Signature_eq key key = true) as -> by by apply Signature_eq_true.
        done.
      * by rewrite !filter_cons_False.
    + destruct (decide (P k)) as [HPk|HPk].
      * rewrite !(filter_cons_True _ (k, v)) by done. rewrite IH.
        case_decide; [|done]. simpl. by rewrite Heq.
      * rewrite !(filter_cons_False _ (k, v)) by done. by rewrite IH.
Qed.

Lemma filter_dict_update (P : Signature type → Prop) `{!∀ k, Decision (P k)}
    acc items :
  filter (λ e, P e.1) (fold_left (λ d item, dict_setitem d item.1 item.2) items acc) =
  fold_left (λ d item, dict_setitem d item.1 item.2)
    (filter (λ e, P e.1) items) (filter (λ e, P e.1) acc).
Proof.
  revert acc. induction items as [|[k v] items IH]; intros acc; simpl; [done|].
  rewrite IH, filter_dict_setitem. case_decide as HP.
  - by rewrite filter_cons_True.
  - by rewrite filter_cons_False.
Qed.

Lemma filter_add_item (P : Signature type → Prop) `{!∀ k, Decision (P k)}
    items signature fn :
  ¬ P signature →
  filter (λ e, P e.1) (add_item items (signature, fn)) = filter (λ e, P e.1) items.
Proof.
  intros HP. destruct (add_item_split items signature fn)
    as (before & after & -> & -> & _).
  by rewrite !filter_app, filter_cons_False.
Qed.

Lemma filter_add_items (P : Signature type → Prop) `{!∀ k, Decision (P k)}
    items (new_items : dict type) :
  (∀ key, key ∈ new_items.*1 → ¬ P key) →
  filter (λ e, P e.1) (fold_left add_item new_items items) = filter (λ e, P e.1) items.
Proof.
  revert items. induction new_items as [|[s fn] new_items IH]; intros items Hnew;
    cbn [fold_left]; [done|].
  rewrite IH.
  - apply filter_add_item, Hnew. simpl. apply elem_of_cons. by left.
  - intros key Hkey. apply Hnew. simpl. apply elem_of_cons. by right.
Qed.

Lemma add_items_keys_elem items (new_items : dict type) key :
  key ∈ (fold_left add_item new_items items).*1 ↔
  key ∈ items.*1 ∨ key ∈ new_items.*1.
Proof.
  revert items. induction new_items as [|[s fn] new_items IH]; intros items;
    cbn [fold_left].
  - simpl. rewrite elem_of_nil. tauto.
  - rewrite IH. destruct (add_item_split items s fn) as (before & after & -> & -> & _).
    rewrite !fmap_app, !elem_of_app, !fmap_cons, !elem_of_cons. simpl. tauto.
Qed.

Lemma batch_keys (signatures : list (Signature type)) fn :
  (map (λ signature, (signature, fn)) signatures).*1 = signatures.
Proof. induction signatures; simpl; [done | by f_equal]. Qed.

(** What a [register] call that returns does to the dictionary: the keys
    are the old ones and the new signatures, no key is repeated, and the
    old entries are there as they were, in the order they had. *)
Lemma register_Ok_keys fn d d' :
  NoDup d.*1 → register fn d = (Ok (), d') →
  ∃ signatures,
    get_signatures fn = Ok signatures ∧
    (∀ signature, signature ∈ signatures → signature ∉ d.*1) ∧
    NoDup d'.*1 ∧
    (∀ key, key ∈ d'.*1 ↔ key ∈ d.*1 ∨ key ∈ signatures) ∧
    filter (λ e, e.1 ∈ d.*1) d' = d.
Proof.
  intros Hnodup (signatures & Hsigs & Hnew & ->)%register_Ok.
  exists signatures. split; [done|]. split; [done|]. split; [|split].
  - apply dict_update_keys_NoDup. constructor.
  - intros key. unfold dict_of_items.
    rewrite dict_update_keys_elem, add_items_keys_elem, batch_keys.
    rewrite elem_of_nil. tauto.
  - unfold dict_of_items.
    pose proof (filter_dict_update (.∈ d.*1) []
      (fold_left add_item (map (λ signature, (signature, fn)) signatures) d)) as Hdict.
    pose proof (filter_add_items (.∈ d.*1) d
      (map (λ signature, (signature, fn)) signatures)) as Hitems.
    cbv beta in Hdict, Hitems. rewrite Hdict, Hitems.
    + rewrite filter_all, filter_nil; [by rewrite dict_update_NoDup|].
      apply Forall_forall. intros e He. by apply list_elem_of_fmap_2.
    + rewrite batch_keys. intros key Hkey. by apply Hnew.
Qed.

End Items.

(** ** The order of the entries *)

Section Order.
Context {type : Type} `{Classes type}.
Implicit Types (d items acc : dict type) (fn : Callable type).
Implicit Types (key signature X Y : Signature type).

(** No key is strictly less than a key that stands before it. *)
Local Abbreviation ascending := (StronglySorted (λ X Y, Signature_lt Y X = false)).

Lemma ascending_lookup (keys : list (Signature type)) i j X Y :
  ascending keys → keys !! i = Some X → keys !! j = Some Y → i < j →
  Signature_lt Y X = false.
Proof.
  intros Hsorted. revert i j. induction Hsorted as [|Z keys Hkeys IH HZ]; intros i j Hi Hj Hlt.
  - by rewrite lookup_nil in Hi.
  - destruct j as [|j]; [lia|]. simpl in Hj. destruct i as [|i]; simpl in Hi.
    + simplify_eq. rewrite Forall_forall in HZ. by eapply HZ, list_elem_of_lookup_2.
    + eapply IH; [done..|lia].
Qed.

Lemma ascending_linearization d : ascending d.*1 → linearization d.
Proof.
  intros Hsorted i j X Y Hi Hj Hlt.
  destruct (decide (i < j)) as [|Hge]; [done|]. exfalso.
  destruct (decide (i = j)) as [->|Hne].
  - simplify_eq. by rewrite Signature_lt_irrefl in Hlt.
  - pose proof (ascending_lookup d.*1 j i Y X Hsorted Hj Hi ltac:(lia)). congruence.
Qed.

Lemma add_item_ascending `{!TransitiveSubclass type} items signature fn :
  ascending items.*1 → ascending (add_item items (signature, fn)).*1.
Proof.
  destruct (add_item_split items signature fn)
    as (before & after & -> & -> & Hbefore & Hafter).
  rewrite !fmap_app, fmap_cons. simpl.
  rewrite !StronglySorted_app, StronglySorted_cons.
  intros (Hcross & Hb & Ha). split; [|split; [done|split; [|done]]].
  - intros X Y HX [->|HY]%elem_of_cons; [|by apply Hcross].
    apply list_elem_of_fmap in HX as (e & -> & He).
    rewrite Forall_forall in Hbefore. by apply Hbefore.
  - destruct after as [|item after]; [constructor|].
    rewrite fmap_cons in Ha. apply StronglySorted_cons in Ha as [Hitem _].
    constructor; [by apply Signature_lt_asym|].
    eapply Forall_impl; [exact Hitem|]. intros Y HY. simpl in HY.
    destruct (Signature_lt Y signature) eqn:HYs; [|done].
    rewrite <- HY. symmetry. by eapply Signature_lt_trans.
Qed.

Lemma add_items_ascending `{!TransitiveSubclass type} items (new_items : dict type) :
  ascending items.*1 → ascending (fold_left add_item new_items items).*1.
Proof.
  revert items. induction new_items as [|[s fn] new_items IH]; intros items Hsorted;
    cbn [fold_left]; [done|].
  by apply IH, add_item_ascending.
Qed.

Lemma dict_update_ascending acc items :
  ascending (acc.*1 ++ items.*1) →
  ascending (fold_left (λ d item, dict_setitem d item.1 item.2) items acc).*1.
Proof.
  revert acc. induction items as [|[k v] items IH]; intros acc Hsorted; simpl in *.
  - by rewrite app_nil_r in Hsorted.
  - apply IH. rewrite dict_setitem_keys. case_decide.
    + apply StronglySorted_app in Hsorted as (Hcross & Hacc & [_ Hitems]%StronglySorted_cons).
      apply StronglySorted_app. split; [|done]. intros X Y HX HY.
      apply Hcross; [done|]. apply elem_of_cons. by right.
    + by rewrite <- app_assoc.
Qed.

Lemma register_ascending `{!TransitiveSubclass type} fn d d' :
  ascending d.*1 → register fn d = (Ok (), d') → ascending d'.*1.
Proof.
  intros Hsorted (signatures & _ & _ & ->)%register_Ok.
  apply dict_update_ascending. simpl. by apply add_items_ascending.
Qed.

Lemma register_NoDup fn d d' : register fn d = (Ok (), d') → NoDup d'.*1.
Proof.
  intros (signatures & _ & _ & ->)%register_Ok.
  apply dict_update_keys_NoDup. constructor.
Qed.

Lemma reachable_NoDup d : reachable d → NoDup d.*1.
Proof. destruct 1; by eapply register_NoDup. Qed.

Lemma reachable_ascending `{!TransitiveSubclass type} d : reachable d → ascending d.*1.
Proof.
  induction 1 as [fn d Hinit|fn d d' _ IH Hrun].
  - eapply register_ascending; [|exact Hinit]. constructor.
  - by eapply register_ascending.
Qed.

End Order.

(** ** Parameters without a class, and functions without parameters *)

Section Parameters.
Context {type : Type} `{Classes type}.
Implicit Types (d : dict type) (fn : Callable type).
Implicit Types (signature : Signature type) (h : option (hint type)).

Lemma param_type_unannotated h : unannotated h → param_type h = AClass object.
Proof. by intros [-> | ->]. Qed.

Lemma get_signatures_Ok_inv fn signatures signature :
  get_signatures fn = Ok signatures → signature ∈ signatures →
  fn_hints fn ≠ [] ∧
  Forall2 (λ t h, ∃ ts, unpack_types (param_type h) = Ok ts ∧ t ∈ ts)
    signature (fn_hints fn).
Proof.
  unfold get_signatures, unpack_signatures_star.
  destruct (fn_hints fn) as [|h hints]; [done|]. simpl. intros Hrun Hin.
  split; [done|].
  pose proof (unpack_signatures_Ok_inv _ _ _ _ Hrun Hin) as Hall.
  change (param_type h :: map param_type hints) with (param_type <$> (h :: hints)) in Hall.
  by apply Forall2_fmap_r in Hall.
Qed.

Lemma matches_insert `{!ClassLaws type} (args : list type) signature i arg :
  signature !! i = Some object → matches args signature →
  matches (<[i:=arg]> args) signature.
Proof.
  intros Hi [Hlen Hall]. split; [by rewrite length_insert|].
  rewrite <- (list_insert_id signature i object) by done.
  apply Forall2_insert; [done|]. apply issubclass_object.
Qed.

(** C10. A function without parameters is never registered: the
    construction of a dispatcher from it and [register] both raise, the
    dictionary staying as it was, so that every key of a dictionary ever
    held has at least one position. *)
Theorem zero_parameters_rejected :
  (∀ fn d, fn_hints fn = [] →
     multipledispatch fn = (Raise TypeError_missing_tp, []) ∧
     register fn d = (Raise TypeError_missing_tp, d)) ∧
  (∀ d, reachable d → Forall (λ signature, 1 ≤ length signature) d.*1).
Proof.
  split.
  - intros fn d Hfn.
    assert (get_signatures fn = Raise TypeError_missing_tp) as Hraise
      by (unfold get_signatures; by rewrite Hfn).
    split; [apply (register_raise fn [])|apply register_raise]; done.
  - assert (∀ fn d d', NoDup d.*1 →
              Forall (λ signature, 1 ≤ length signature) d.*1 →
              register fn d = (Ok (), d') →
              Forall (λ signature, 1 ≤ length signature) d'.*1) as Hstep.
    { intros fn d d' Hnodup Hd Hrun.
      destruct (register_Ok_keys fn d d' Hnodup Hrun)
        as (signatures & Hsigs & _ & _ & Hkeys & _).
      apply Forall_forall. intros key [Hold|Hnew]%Hkeys.
      - rewrite Forall_forall in Hd. by apply Hd.
      - destruct (get_signatures_Ok_inv fn signatures key Hsigs Hnew) as [Hne Hall].
        apply Forall2_length in Hall. rewrite Hall.
        destruct (fn_hints fn); [done | simpl; lia]. }
    induction 1 as [fn d Hinit|fn d d' Hd IH Hrun].
    + eapply (Hstep fn []); [constructor | constructor | done].
    + eapply Hstep; [by apply reachable_NoDup | done | done].
Qed.

End Parameters.

(** ** Incomparable signatures *)

Section Incomparable.
Context {type : Type} `{Classes type}.
Implicit Types (d items acc : dict type) (fn : Callable type).
Implicit Types (key signature A B : Signature type).

Lemma find_greater_S signature items i :
  find_greater signature items (S i) = S <$> find_greater signature items i.
Proof.
  revert i. induction items as [|item items IH]; intros i; simpl; [done|].
  destruct (Signature_lt signature item.1); [done | apply IH].
Qed.

Lemma add_item_cons item items signature fn :
  add_item (item :: items) (signature, fn) =
  if Signature_lt signature item.1 then (signature, fn) :: item :: items
  else item :: add_item items (signature, fn).
Proof.
  unfold add_item. simpl. destruct (Signature_lt signature item.1); [done|].
  rewrite find_greater_S. by destruct (find_greater signature items 0).
Qed.

(** As long as no item before the entry of [A] is [B] or strictly greater
    than [B], adding items that are not strictly greater than [B] keeps it
    so. *)
Lemma add_item_before A B fA signature fn before after :
  Signature_lt B A = false →
  Signature_lt B signature = false →
  Forall (λ e, Signature_lt B e.1 = false ∧ e.1 ≠ B) before →
  ∃ before' after',
    add_item (before ++ (A, fA) :: after) (signature, fn) =
      before' ++ (A, fA) :: after' ∧
    Forall (λ e, Signature_lt B e.1 = false ∧ e.1 ≠ B) before'.
Proof.
  intros HBA HBs. induction 1 as [|e before [HBe HeB] Hbefore IH];
    [rewrite app_nil_l | rewrite <- app_comm_cons]; rewrite add_item_cons.
  - cbn [fst]. destruct (Signature_lt signature A) eqn:HsA.
    + exists [(signature, fn)], after. split; [done|]. repeat constructor; simpl.
      * done.
      * intros ->. congruence.
    + by exists [], (add_item after (signature, fn)).
  - destruct (Signature_lt signature e.1) eqn:Hse.
    + exists ((signature, fn) :: e :: before), after. split; [done|].
      constructor; [|by constructor]. simpl. split; [done|].
      intros ->. congruence.
    + destruct IH as (before' & after' & -> & Hbefore').
      exists (e :: before'), after'. split; [done|]. by constructor.
Qed.

Lemma add_items_before A B fA (new_items : dict type) before after :
  Signature_lt B A = false →
  (∀ signature, signature ∈ new_items.*1 → Signature_lt B signature = false) →
  Forall (λ e, Signature_lt B e.1 = false ∧ e.1 ≠ B) before →
  ∃ before' after',
    fold_left add_item new_items (before ++ (A, fA) :: after) =
      before' ++ (A, fA) :: after' ∧
    Forall (λ e, Signature_lt B e.1 = false ∧ e.1 ≠ B) before'.
Proof.
  intros HBA. revert before after.
  induction new_items as [|[s fn] new_items IH]; intros before after Hnew Hbefore;
    cbn [fold_left].
  - by exists before, after.
  - destruct (add_item_before A B fA s fn before after HBA) as
      (before' & after' & -> & Hbefore'); [|done|].
    + apply Hnew. rewrite fmap_cons. apply elem_of_cons. by left.
    + apply IH; [|done]. intros s' Hs'. apply Hnew.
      rewrite fmap_cons. apply elem_of_cons. by right.
Qed.

(** Adding an item whose key is not [A] leaves an item where it is with
    respect to the entry of [A]: if [A] is not before it, it is not
    afterwards, and if [A] is behind it, it stays behind. *)
Lemma add_item_keeps (x : Signature type * Callable type) A signature fn
    (before after : dict type) :
  signature ≠ A → A ∉ before.*1 →
  ∃ before' after',
    add_item (before ++ x :: after) (signature, fn) = before' ++ x :: after' ∧
    (A ∉ before'.*1) ∧ (A ∈ after.*1 → A ∈ after'.*1).
Proof.
  intros HsA. induction before as [|e before IH]; intros Hbefore;
    [rewrite app_nil_l | rewrite <- app_comm_cons]; rewrite add_item_cons.
  - destruct (Signature_lt signature x.1).
    + exists [(signature, fn)], after. split; [done|]. split; [|done].
      simpl. by intros ->%list_elem_of_singleton.
    + exists [], (add_item after (signature, fn)). split; [done|].
      split; [done|]. intros Hin.
      apply (add_items_keys_elem after [(signature, fn)]). by left.
  - rewrite fmap_cons in Hbefore. apply not_elem_of_cons in Hbefore as [HeA Hbefore].
    destruct (Signature_lt signature e.1).
    + exists ((signature, fn) :: e :: before), after. split; [done|].
      split; [|done]. rewrite !fmap_cons, !not_elem_of_cons. simpl. done.
    + destruct (IH Hbefore) as (before' & after' & -> & Hbefore' & Hafter').
      exists (e :: before'), after'. split; [done|]. split; [|done].
      rewrite fmap_cons, not_elem_of_cons. done.
Qed.

Lemma add_items_keeps (x : Signature type * Callable type) A
    (new_items before after : dict type) :
  A ∉ new_items.*1 → A ∉ before.*1 → A ∈ after.*1 →
  ∃ before' after',
    fold_left add_item new_items (before ++ x :: after) =
      before' ++ x :: after' ∧
    (A ∉ before'.*1) ∧ A ∈ after'.*1.
Proof.
  revert before after.
  induction new_items as [|[s fn] new_items IH]; intros before after Hnew Hb Ha;
    cbn [fold_left].
  - by exists before, after.
  - rewrite fmap_cons in Hnew. apply not_elem_of_cons in Hnew as [HAs Hnew].
    destruct (add_item_keeps x A s fn before after) as
      (before' & after' & -> & Hb' & Ha'); [done | done |].
    apply IH; [done | done | by apply Ha'].
Qed.

(** An item that is strictly less than an item standing before the entry
    of [A] is put before the entry of [A]. *)
Lemma add_item_front (x : Signature type * Callable type) A B fn
    (before after : dict type) :
  Signature_lt B x.1 = true → B ≠ A → x.1 ≠ A →
  A ∉ before.*1 → A ∈ after.*1 →
  ∃ before' after',
    add_item (before ++ x :: after) (B, fn) = before' ++ (B, fn) :: after' ∧
    (A ∉ before'.*1) ∧ A ∈ after'.*1.
Proof.
  intros HBx HBA HxA. induction before as [|e before IH]; intros Hbefore Hafter;
    [rewrite app_nil_l | rewrite <- app_comm_cons]; rewrite add_item_cons.
  - rewrite HBx. exists [], (x :: after). split; [done|]. split; [done|].
    rewrite fmap_cons. apply elem_of_cons. by right.
  - rewrite fmap_cons in Hbefore. apply not_elem_of_cons in Hbefore as [HeA Hbefore].
    destruct (Signature_lt B e.1).
    + exists [], (e :: before ++ x :: after). split; [done|].
      split; [apply not_elem_of_nil|].
      rewrite fmap_cons, fmap_app, fmap_cons.
      rewrite elem_of_cons, elem_of_app, elem_of_cons. tauto.
    + destruct (IH Hbefore Hafter) as (before' & after' & -> & Hbefore' & Hafter').
      exists (e :: before'), after'. split; [done|]. split; [|done].
      rewrite fmap_cons, not_elem_of_cons. done.
Qed.

Lemma add_items_front (x : Signature type * Callable type) A B
    (new_items before after : dict type) :
  Signature_lt B x.1 = true → B ≠ A → x.1 ≠ A →
  A ∉ new_items.*1 → B ∈ new_items.*1 →
  A ∉ before.*1 → A ∈ after.*1 →
  ∃ before' after' fn,
    fold_left add_item new_items (before ++ x :: after) =
      before' ++ (B, fn) :: after' ∧
    (A ∉ before'.*1) ∧ A ∈ after'.*1.
Proof.
  intros HBx HBA HxA. revert before after.
  induction new_items as [|[s fn] new_items IH];
    intros before after Hnew HB Hb Ha; cbn [fold_left].
  - by apply elem_of_nil in HB.
  - rewrite fmap_cons in Hnew, HB. apply not_elem_of_cons in Hnew as [HAs Hnew].
    simpl in HAs, HB. destruct (decide (s = B)) as [->|HsB].
    + destruct (add_item_front x A B fn before after) as
        (before' & after' & -> & Hb' & Ha'); [done..|].
      destruct (add_items_keeps (B, fn) A new_items before' after')
        as (before'' & after'' & -> & Hb'' & Ha''); [done..|].
      by exists before'', after'', fn.
    + apply elem_of_cons in HB as [?|HB]; [done|].
      destruct (add_item_keeps x A s fn before after) as
        (before' & after' & -> & Hb' & Ha'); [done | done |].
      apply IH; [done | done | done | by apply Ha'].
Qed.

(** The keys of the dictionary built so far stay in front. *)
Lemma dict_update_keys_prefix acc items :
  ∃ rest, (fold_left (λ d item, dict_setitem d item.1 item.2) items acc).*1 =
          acc.*1 ++ rest.
Proof.
  revert acc. induction items as [|[k v] items IH]; intros acc; simpl.
  - exists []. by rewrite app_nil_r.
  - destruct (IH (dict_setitem acc k v)) as [rest ->].
    rewrite dict_setitem_keys. case_decide; [by exists rest|].
    exists (k :: rest). by rewrite <- app_assoc.
Qed.

Lemma dict_of_items_before A B fA before after :
  A ≠ B → B ∉ before.*1 → B ∈ after.*1 →
  ∃ i j, i < j ∧
    (dict_of_items (before ++ (A, fA) :: after)).*1 !! i = Some A ∧
    (dict_of_items (before ++ (A, fA) :: after)).*1 !! j = Some B.
Proof.
  intros HAB HB Hafter. unfold dict_of_items.
  change (before ++ (A, fA) :: after) with (before ++ [(A, fA)] ++ after).
  rewrite (assoc_L (++) before [(A, fA)] after), fold_left_app.
  set (acc := fold_left _ (before ++ [(A, fA)]) []).
  assert (A ∈ acc.*1) as HA.
  { apply dict_update_keys_elem. right. rewrite fmap_app, elem_of_app.
    right. simpl. apply elem_of_cons. by left. }
  assert (B ∉ acc.*1) as HBacc.
  { intros [Hnil|Hin]%dict_update_keys_elem; [by apply elem_of_nil in Hnil|].
    rewrite fmap_app, elem_of_app in Hin. destruct Hin as [Hin|Hin]; [done|].
    simpl in Hin. apply list_elem_of_singleton in Hin. congruence. }
  destruct (dict_update_keys_prefix acc after) as [rest Hrest].
  assert (B ∈ rest) as HBrest.
  { assert (B ∈ acc.*1 ++ rest) as Hin
      by (rewrite <- Hrest; apply dict_update_keys_elem; by right).
    apply elem_of_app in Hin as [?|?]; done. }
  apply list_elem_of_lookup in HA as [i Hi].
  apply list_elem_of_lookup in HBrest as [j Hj].
  exists i, (length acc.*1 + j). rewrite Hrest.
  pose proof (lookup_lt_Some _ _ _ Hi). split; [lia|]. split.
  - by apply lookup_app_l_Some.
  - by rewrite lookup_app_r, Nat.add_comm, Nat.add_sub by lia.
Qed.

Lemma sublist_keys (l k : dict type) : l `sublist_of` k → l.*1 `sublist_of` k.*1.
Proof. induction 1; csimpl; by constructor. Qed.

Lemma sublist_pair_lookup {X : Type} (x y : X) (l : list X) :
  [x; y] `sublist_of` l ↔ ∃ i j, i < j ∧ l !! i = Some x ∧ l !! j = Some y.
Proof.
  split.
  - intros (l1 & l2 & -> & (l3 & l4 & -> & _)%sublist_cons_l)%sublist_cons_l.
    exists (length l1), (length l1 + S (length l3)). split; [lia|]. split.
    + by rewrite list_lookup_middle.
    + rewrite lookup_app_r by lia.
      replace (length l1 + S (length l3) - length l1) with (S (length l3)) by lia.
      simpl. by rewrite list_lookup_middle.
  - intros (i & j & Hij & Hi & Hj).
    rewrite <- (take_drop_middle l i x Hi).
    apply sublist_inserts_l, sublist_skip.
    assert (drop (S i) l !! (j - S i) = Some y) as Hy.
    { rewrite lookup_drop. by replace (S i + (j - S i)) with j by lia. }
    rewrite <- (take_drop_middle _ _ _ Hy).
    apply sublist_inserts_l, sublist_skip, sublist_nil_l.
Qed.

(** Registrations that return leave the entries that are there in the
    order they have. *)
Lemma register_step_sublist d d' :
  NoDup d.*1 → register_step d d' → d.*1 `sublist_of` d'.*1 ∧ NoDup d'.*1.
Proof.
  intros Hnodup [fn Hrun].
  destruct (register_Ok_keys fn d d' Hnodup Hrun) as (_ & _ & _ & Hnodup' & _ & Hold).
  split; [|done]. rewrite <- Hold at 1. apply sublist_keys, sublist_filter.
Qed.

Lemma registrations_sublist d d' :
  NoDup d.*1 → rtc register_step d d' → d.*1 `sublist_of` d'.*1.
Proof.
  intros Hnodup Hsteps. revert Hnodup.
  induction Hsteps as [d|d d1 d2 Hstep _ IH]; intros Hnodup; [done|].
  destruct (register_step_sublist d d1 Hnodup Hstep) as [Hsub Hnodup1].
  etrans; [exact Hsub | by apply IH].
Qed.

Lemma call_unfold (args : list type) d :
  __call__ args d =
  match call_loop args d with
  | Some fn => (Ok fn, d)
  | None => (Raise (TypeError_no_implementations args), d)
  end.
Proof. unfold __call__, mbind, M_bind, get_signature_map. by destruct (call_loop args d). Qed.

(** A call that matches the entry at index [i] is handed to an entry at or
    before [i]. *)
Lemma call_at_or_before (args : list type) d i entry :
  d !! i = Some entry → matches args entry.1 →
  ∃ k entry', k ≤ i ∧ d !! k = Some entry' ∧ matches args entry'.1 ∧
    __call__ args d = (Ok entry'.2, d).
Proof.
  intros Hi Hmatch. rewrite call_unfold.
  pose proof (call_loop_first_match args d) as Hloop.
  destruct (call_loop args d) as [fn|].
  - destruct Hloop as (k & s & Hk & Hs & Hfirst). exists k, (s, fn).
    split; [|done]. destruct (decide (k ≤ i)) as [|Hgt]; [done|].
    exfalso. apply (Hfirst i entry); [lia | done | done].
  - exfalso. by apply (Hloop entry); [eapply list_elem_of_lookup_2|].
Qed.

Lemma stays_before_intro d X Y i j :
  NoDup d.*1 → i < j → d.*1 !! i = Some X → d.*1 !! j = Some Y →
  stays_before d X Y.
Proof.
  intros Hnodup Hij Hi Hj d' Hlater.
  assert ([X; Y] `sublist_of` d'.*1) as Hpair.
  { etrans; [|by apply registrations_sublist].
    apply sublist_pair_lookup. by exists i, j. }
  apply sublist_pair_lookup in Hpair as (i' & j' & Hij' & Hi' & Hj').
  exists i', j'. split; [done|]. split; [done|]. split; [done|].
  intros args HmX _.
  apply list_lookup_fmap_Some in Hi' as ([X' fX] & HX' & Hi'). simpl in HX'. subst X'.
  by apply (call_at_or_before args d' i' (X, fX)).
Qed.

(** C7, as the code has it. Take an entry [A] of the dictionary and a
    function one of whose signatures is [B], none of whose signatures is a
    key yet. The registration returns. If some entry standing before [A]
    is strictly greater than [B], then [B] is put before [A]. If [B] is not
    strictly less than [A], nor than an entry standing before [A], nor than
    a signature of the function, then [B] is put after [A]. In both cases
    the order of the two is kept by all further registrations, and a call
    that matches both is handed to an entry that matches it and stands at or
    before the earlier of the two, hence not to the later one. *)
Theorem incomparable_order_kept d A B fn signatures iA :
  reachable d →
  d.*1 !! iA = Some A →
  get_signatures fn = Ok signatures →
  B ∈ signatures →
  (∀ signature, signature ∈ signatures → signature ∉ d.*1) →
  ∃ d1,
    register fn d = (Ok (), d1) ∧
    ((∃ j E, j < iA ∧ d.*1 !! j = Some E ∧ Signature_lt B E = true) →
     stays_before d1 B A) ∧
    (Signature_lt B A = false →
     (∀ j E, j < iA → d.*1 !! j = Some E → Signature_lt B E = false) →
     (∀ signature, signature ∈ signatures → Signature_lt B signature = false) →
     stays_before d1 A B).
Proof.
  intros Hd HA Hsigs HB Hnew.
  destruct (register_run fn d signatures Hsigs)
    as [(s & r & Hs & Hget & _)|[_ Hrun]].
  { exfalso. apply (Hnew s Hs). apply dict_get_Some in Hget.
    by apply (list_elem_of_fmap_2 fst) in Hget. }
  eexists. split; [exact Hrun|].
  pose proof (reachable_NoDup d Hd) as Hnodup.
  pose proof (register_NoDup fn d _ Hrun) as Hnodup1.
  assert (B ∉ d.*1) as HBd by by apply Hnew.
  assert (A ∈ d.*1) as HAd by by eapply list_elem_of_lookup_2.
  assert (A ≠ B) as HAB by (by intros ->).
  set (batch := map (λ signature, (signature, fn)) signatures).
  assert (batch.*1 = signatures) as Hbatch by apply batch_keys.
  pose proof HA as HA'.
  apply list_lookup_fmap_Some in HA' as ([A' fA] & HA'' & HAe). simpl in HA''. subst A'.
  split.
  - intros (j & E & Hj & HE & HBE).
    apply list_lookup_fmap_Some in HE as ([E' fE] & HE' & HEe). simpl in HE'. subst E'.
    assert (E ≠ A) as HEA.
    { intros ->. assert (j = iA); [|lia].
      apply (NoDup_lookup d.*1 j iA A); [done | | done].
      by rewrite list_lookup_fmap, HEe. }
    assert (A ∉ (take j d).*1) as Hbefore.
    { rewrite fmap_take. intros (k & [Hk Hkj]%lookup_take_Some)%list_elem_of_lookup.
      assert (k = iA); [|lia]. by apply (NoDup_lookup d.*1 k iA A). }
    assert (A ∈ (drop (S j) d).*1) as Hafter.
    { rewrite fmap_drop. apply (list_elem_of_lookup_2 _ (iA - S j)).
      rewrite lookup_drop. by replace (S j + (iA - S j)) with iA by lia. }
    destruct (add_items_front (E, fE) A B batch (take j d) (drop (S j) d))
      as (before & after & f & Hitems & Hb & Ha); try done.
    { rewrite Hbatch. intros HAs. by apply (Hnew A). }
    { by rewrite Hbatch. }
    rewrite take_drop_middle in Hitems by done.
    destruct (dict_of_items_before B A f before after) as (i1 & j1 & Hij1 & Hi1 & Hj1);
      [done..|].
    rewrite <- Hitems in Hi1, Hj1.
    by apply (stays_before_intro _ B A i1 j1).
  - intros HBA Hprefix Hsame.
    assert (Forall (λ e, Signature_lt B e.1 = false ∧ e.1 ≠ B) (take iA d)) as Hbefore.
    { apply Forall_lookup. intros j e [He Hj]%lookup_take_Some. split.
      - apply (Hprefix j); [done|]. by rewrite list_lookup_fmap, He.
      - intros <-. apply HBd, (list_elem_of_fmap_2 fst).
        by eapply list_elem_of_lookup_2. }
    destruct (add_items_before A B fA batch (take iA d) (drop (S iA) d) HBA)
      as (before & after & Hitems & Hbefore'); [|done|].
    { rewrite Hbatch. apply Hsame. }
    rewrite take_drop_middle in Hitems by done.
    assert (B ∉ before.*1) as HBbefore.
    { intros (e & -> & He)%list_elem_of_fmap. rewrite Forall_forall in Hbefore'.
      by destruct (Hbefore' e He). }
    assert (B ∈ after.*1) as HBafter.
    { assert (B ∈ (before ++ (A, fA) :: after).*1) as Hin.
      { rewrite <- Hitems. apply add_items_keys_elem. right. by rewrite Hbatch. }
      rewrite fmap_app, elem_of_app, fmap_cons, elem_of_cons in Hin.
      destruct Hin as [?|[?|?]]; [done | by simplify_eq/= | done]. }
    destruct (dict_of_items_before A B fA before after HAB HBbefore HBafter)
      as (i1 & j1 & Hij1 & Hi1 & Hj1).
    rewrite <- Hitems in Hi1, Hj1.
    by apply (stays_before_intro _ A B i1 j1).
Qed.

End Incomparable.

(** ** The program at work *)

Lemma registrations_reachable fns d d' :
  reachable d → registrations fns d = (Ok (), d') → reachable d'.
Proof.
  revert d. induction fns as [|fn fns IH]; intros d Hd; simpl.
  - by intros [= <-].
  - destruct (register fn d) as [[[]|e] d1] eqn:Hrun; [|done].
    apply IH. by eapply reachable_register.
Qed.

Lemma foo_dict_reachable : reachable foo_dict.
Proof.
  eapply (registrations_reachable [foo_str_int; foo_str_str; foo_int_union]).
  - apply (reachable_init foo_object_object [([Object; Object], foo_object_object)]).
    reflexivity.
  - reflexivity.
Qed.

(** C8. After the registrations of the docstring, in their order, the
    call with a [str] and an [int] goes to the function registered for
    [(str, int)]. *)
Theorem docstring_resolution :
  registrations [foo_object_object; foo_str_int; foo_str_str; foo_int_union] []
    = (Ok (), foo_dict) ∧
  foo_dict.*1 = [[Str; Int]; [Str; Str]; [Int; Int]; [Int; Str]; [Object; Object]] ∧
  __call__ [Str; Int] foo_dict = (Ok foo_str_int, foo_dict).
Proof. by vm_compute. Qed.

(** C2 at work: [(str, Union[bool, int])] meets [(str, int)]; nothing of
    it is inserted. *)
Lemma register_conflict_witness :
  ∃ conflicting registered,
    conflicting ∈ [[Str; Bool]; [Str; Int]] ∧
    (conflicting, registered) ∈ foo_dict ∧
    register foo_str_union foo_dict =
      (Raise (TypeError_multiple_definitions registered foo_str_union), foo_dict).
Proof.
  apply (register_conflict foo_str_union foo_dict [[Str; Bool]; [Str; Int]] [Str; Int]).
  - reflexivity.
  - repeat constructor.
  - repeat constructor.
Defined.

Lemma zoo_dict_reachable : reachable zoo_dict.
Proof.
  apply (reachable_register by_pet [([Animal], by_animal)]); [|done].
  by apply (reachable_init by_animal).
Qed.

(** C7 at work on the dictionary that holds [(Animal,)] and then
    [(Pet,)]: [(int,)], not less than either, is put after [(Pet,)] and
    stays there; [(Dog,)], less than [(Animal,)], is put before [(Pet,)] and
    stays there. *)
Lemma incomparable_order_kept_witness :
  (∃ d1, register by_int zoo_dict = (Ok (), d1) ∧ stays_before d1 [Pet] [Int]) ∧
  (∃ d1, register by_dog zoo_dict = (Ok (), d1) ∧ stays_before d1 [Dog] [Pet]).
Proof.
  split.
  - destruct (incomparable_order_kept zoo_dict [Pet] [Int] by_int [[Int]] 1)
      as (d1 & Hrun & _ & Hafter).
    + exact zoo_dict_reachable.
    + reflexivity.
    + reflexivity.
    + repeat constructor.
    + intros signature Hsig Hin. apply list_elem_of_singleton in Hsig as ->.
      change (zoo_dict.*1) with [[Animal]; [Pet]] in Hin.
      rewrite !elem_of_cons, elem_of_nil in Hin.
      destruct Hin as [Hin|[Hin|[]]]; discriminate Hin.
    + exists d1. split; [exact Hrun|]. apply Hafter.
      * reflexivity.
      * intros [|[|j]] E Hj HE; [|lia..]. injection HE as <-. reflexivity.
      * intros signature Hsig. apply list_elem_of_singleton in Hsig as ->.
        reflexivity.
  - destruct (incomparable_order_kept zoo_dict [Pet] [Dog] by_dog [[Dog]] 1)
      as (d1 & Hrun & Hbefore & _).
    + exact zoo_dict_reachable.
    + reflexivity.
    + reflexivity.
    + repeat constructor.
    + intros signature Hsig Hin. apply list_elem_of_singleton in Hsig as ->.
      change (zoo_dict.*1) with [[Animal]; [Pet]] in Hin.
      rewrite !elem_of_cons, elem_of_nil in Hin.
      destruct Hin as [Hin|[Hin|[]]]; discriminate Hin.
    + exists d1. split; [exact Hrun|]. apply Hbefore.
      exists 0, [Animal]. split; [lia|]. split; reflexivity.
Defined.

(** C7 fails as stated: [(Pet,)] and [(Dog,)] have the same arity, are
    unequal and neither is less than the other; [(Pet,)] is registered
    first, yet [(Dog,)], being less than the entry [(Animal,)] that stands
    before [(Pet,)], is put before both, and the call with a [Puppy], which
    matches both, goes to the function registered last. *)
Lemma first_inserted_counterexample :
  ∃ d,
    registrations [by_animal; by_pet; by_dog] [] = (Ok (), d) ∧
    length [Pet] = length [Dog] ∧ [Pet] ≠ [Dog] ∧
    Signature_lt [Pet] [Dog] = false ∧ Signature_lt [Dog] [Pet] = false ∧
    d.*1 = [[Dog]; [Animal]; [Pet]] ∧
    matches [Puppy] [Pet] ∧ matches [Puppy] [Dog] ∧
    __call__ [Puppy] d = (Ok by_dog, d).
Proof.
  eexists. split; [reflexivity|]. repeat split; try done; repeat constructor.
Qed.

(** * Further properties of the code *)

#[global] Instance pyclass_antisym : ClassAntisym pyclass.
Proof. intros [] []; vm_compute; congruence. Qed.

(** ** Signatures *)

Section SignatureFacts.
Context {type : Type} `{Classes type}.
Implicit Types (A B C S T : Signature type) (args : list type).

(** X1. [Signature.__eq__] holds exactly of signatures that are the same
    tuple of classes, and two signatures that are equal are not ordered by
    [Signature.__lt__], either way. *)
Theorem Signature_eq_not_lt A B :
  (Signature_eq A B = true ↔ A = B) ∧
  (Signature_eq A B = true →
     Signature_lt A B = false ∧ Signature_lt B A = false).
Proof.
  split; [apply Signature_eq_true|].
  intros ->%Signature_eq_true. split; apply Signature_lt_irrefl.
Qed.

Lemma all_zip_with_false {X Y : Type} (f : X → Y → bool)
    (l : list X) (k : list Y) :
  all (zip_with f l k) = false ↔
  ∃ i a b, l !! i = Some a ∧ k !! i = Some b ∧ f a b = false.
Proof.
  revert k. induction l as [|x l IH]; intros [|y k].
  - split; [done|]. intros (i & a & b & Ha & _). by rewrite lookup_nil in Ha.
  - split; [done|]. intros (i & a & b & Ha & _). by rewrite lookup_nil in Ha.
  - split; [done|]. intros (i & a & b & _ & Hb & _). by rewrite lookup_nil in Hb.
  - change (all (zip_with f (x :: l) (y :: k)))
      with (f x y && all (zip_with f l k)).
    rewrite andb_false_iff, IH. split.
    + intros [Hxy|(i & a & b & Ha & Hb & Hf)];
        [by exists 0, x, y | by exists (S i), a, b].
    + intros ([|i] & a & b & Ha & Hb & Hf); simplify_eq/=;
        [by left | right; by exists i, a, b].
Qed.

(** X2. [Signature.__lt__] holds exactly of two signatures of the same
    arity such that every class of the first is a subclass of the class of
    the second at its position and, at some position, the class of the
    second is not a subclass of the class of the first. *)
Theorem Signature_lt_positions A B :
  Signature_lt A B = true ↔
  length A = length B ∧
  Forall2 (λ a b, issubclass a b = true) A B ∧
  ∃ i a b, A !! i = Some a ∧ B !! i = Some b ∧ issubclass b a = false.
Proof.
  rewrite Signature_lt_true. unfold supercedes at 2. rewrite all_zip_with_false.
  split.
  - intros (Hlen & HAB & i & b & a & Hb & Ha & Hba).
    split; [done|]. split; [by apply all_zip_with_Forall2|]. by exists i, a, b.
  - intros (Hlen & HAB & i & a & b & Ha & Hb & Hba).
    split; [done|]. split; [by apply all_zip_with_Forall2|]. by exists i, b, a.
Qed.



End SignatureFacts.


(** ** Annotations that are no classes *)

Section NonType.
Context {type : Type} `{Classes type}.
Implicit Types (d : dict type) (fn : Callable type).
Implicit Types (a tp : annotation type) (args : list (annotation type)).

Lemma unpack_types_members a : members a ≠ [] → unpack_types a = Ok (members a).
Proof. by destruct a. Qed.

(** The first annotation that is neither a class nor a union stops the
    expansion, provided the annotations before it yield something. *)
Lemma unpack_signatures_non_type a args i repr :
  (a :: args) !! i = Some (AOther repr) →
  (∀ j b, j < i → (a :: args) !! j = Some b → members b ≠ []) →
  unpack_signatures a args = Raise (TypeError_non_type (AOther repr)).
Proof.
  revert a i. induction args as [|a' args IH]; intros a i Hi Hbefore.
  - destruct i as [|i]; [by injection Hi as -> | by rewrite lookup_cons, lookup_nil in Hi].
  - destruct i as [|i]; [by injection Hi as ->|]. rewrite lookup_cons in Hi.
    assert (members a ≠ []) as Ha by (apply (Hbefore 0); [lia | done]).
    cbn [unpack_signatures].
    rewrite (unpack_types_members a Ha).
    destruct (members a) as [|t ts]; [done|]. simpl.
    rewrite (IH a' i); [done | done |].
    intros j b Hj Hb. apply (Hbefore (S j)); [lia | done].
Qed.

(** X4. A function one of whose parameters carries an annotation that is
    neither a class nor a union (the parameters before it being classes or
    non-empty unions) has no signatures: [get_signatures] raises the
    [TypeError] that names this annotation, and [register] raises it too
    and leaves the dictionary as it was. *)
Theorem non_type_annotation_rejected fn d i repr :
  fn_hints fn !! i = Some (Some (HAnn (AOther repr))) →
  (∀ j h, j < i → fn_hints fn !! j = Some h → members (param_type h) ≠ []) →
  get_signatures fn = Raise (TypeError_non_type (AOther repr)) ∧
  register fn d = (Raise (TypeError_non_type (AOther repr)), d).
Proof.
  intros Hi Hbefore.
  assert (get_signatures fn = Raise (TypeError_non_type (AOther repr))) as Hraise.
  { unfold get_signatures, unpack_signatures_star.
    destruct (fn_hints fn) as [|h hints] eqn:Hhints;
      [by rewrite lookup_nil in Hi|].
    change (map param_type (h :: hints)) with (param_type h :: map param_type hints).
    apply (unpack_signatures_non_type _ _ i).
    - change (param_type h :: map param_type hints)
        with (param_type <$> (h :: hints)).
      by rewrite list_lookup_fmap, Hi.
    - intros j b Hj Hb.
      change (param_type h :: map param_type hints)
        with (param_type <$> (h :: hints)) in Hb.
      apply list_lookup_fmap_Some in Hb as (h' & ? & ?). simplify_eq.
      by apply (Hbefore j). }
  split; [done | by apply register_raise].
Qed.

End NonType.

Lemma non_type_annotation_rejected_witness :
  get_signatures foo_list = Raise (TypeError_non_type (AOther "List[int]")) ∧
  register foo_list foo_dict =
    (Raise (TypeError_non_type (AOther "List[int]")), foo_dict).
Proof.
  apply (non_type_annotation_rejected foo_list foo_dict 1 "List[int]").
  - reflexivity.
  - intros [|j] h Hj Hh; [|lia]. by injection Hh as <-.
Defined.

(** ** What registration does to the dictionary *)

Section RegistrationFacts.
Context {type : Type} `{Classes type}.
Implicit Types (d items acc : dict type) (fn : Callable type).
Implicit Types (key signature : Signature type).

Lemma dict_setitem_elem d key value (e : Signature type * Callable type) :
  e ∈ dict_setitem d key value → e ∈ d ∨ e = (key, value).
Proof.
  induction d as [|[k v] d IH]; simpl.
  - intros Hin. apply list_elem_of_singleton in Hin. by right.
  - destruct (Signature_eq k key) eqn:Heq.
    + apply Signature_eq_true in Heq as ->. rewrite !elem_of_cons. intros [->|?]; auto.
    + rewrite !elem_of_cons. intros [->|Hin]; [auto|].
      destruct (IH Hin); auto.
Qed.

Lemma dict_update_elem acc items (e : Signature type * Callable type) :
  e ∈ fold_left (λ d item, dict_setitem d item.1 item.2) items acc →
  e ∈ acc ∨ e ∈ items.
Proof.
  revert acc. induction items as [|[k v] items IH]; intros acc; simpl; [auto|].
  intros [Hin|Hin]%IH; [|right; apply elem_of_cons; by right].
  apply dict_setitem_elem in Hin as [?| ->]; [by left|].
  right. apply elem_of_cons. by left.
Qed.

Lemma add_items_elem items (new_items : dict type)
    (e : Signature type * Callable type) :
  e ∈ fold_left add_item new_items items → e ∈ items ∨ e ∈ new_items.
Proof.
  revert items. induction new_items as [|[s fn] new_items IH]; intros items;
    cbn [fold_left]; [auto|].
  intros [Hin|Hin]%IH; [|right; apply elem_of_cons; by right].
  destruct (add_item_split items s fn) as (before & after & -> & Hadd & _).
  rewrite Hadd in Hin. rewrite elem_of_app, elem_of_cons in Hin.
  rewrite elem_of_app, elem_of_cons. tauto.
Qed.

Lemma dict_get_elem d key v : NoDup d.*1 → (key, v) ∈ d → dict_get d key = Some v.
Proof.
  induction d as [|[k v'] d IH]; simpl; intros Hnodup Hin.
  - by apply elem_of_nil in Hin.
  - apply NoDup_cons in Hnodup as [Hk Hnodup].
    apply elem_of_cons in Hin as [[= -> ->]|Hin].
    + by assert (Signature_eq k k = true) as -> by by apply Signature_eq_true.
    + destruct (Signature_eq k key) eqn:Heq; [|by apply IH].
      apply Signature_eq_true in Heq as ->.
      destruct Hk. by apply (list_elem_of_fmap_2 fst) in Hin.
Qed.

(** After a [register] call that returned, the dictionary maps the
    signatures of the function to the function and every other key to what
    it was mapped to before. *)
Lemma register_Ok_get fn d d' :
  NoDup d.*1 → register fn d = (Ok (), d') →
  ∃ signatures,
    get_signatures fn = Ok signatures ∧
    (∀ signature, signature ∈ signatures → signature ∉ d.*1) ∧
    ∀ key, dict_get d' key =
           if decide (key ∈ signatures) then Some fn else dict_get d key.
Proof.
  intros Hnodup Hrun.
  destruct (register_Ok_keys fn d d' Hnodup Hrun)
    as (signatures & Hsigs & Hnew & Hnodup' & Hkeys & Hold).
  exists signatures. split; [done|]. split; [done|]. intros key.
  apply register_Ok in Hrun as (signatures' & Hsigs' & _ & Hd').
  assert (signatures' = signatures) as -> by congruence.
  case_decide as Hkey.
  - destruct (dict_get d' key) as [v|] eqn:Hget.
    + f_equal. apply dict_get_Some in Hget. rewrite Hd' in Hget.
      apply dict_update_elem in Hget as [Hnil|Hitems];
        [by apply elem_of_nil in Hnil|].
      apply add_items_elem in Hitems as [Hin|Hin].
      * destruct (Hnew key Hkey). by apply (list_elem_of_fmap_2 fst) in Hin.
      * apply list_elem_of_fmap in Hin as (s & [= -> ->] & _). done.
    + apply dict_get_None in Hget. destruct Hget. apply Hkeys. by right.
  - destruct (dict_get d key) as [v|] eqn:Hget.
    + apply dict_get_elem; [done|]. apply dict_get_Some in Hget.
      rewrite <- Hold in Hget. by apply list_elem_of_filter in Hget as [_ ?].
    + apply dict_get_None. apply dict_get_None in Hget.
      intros [?|?]%Hkeys; done.
Qed.

(** X5. The outcomes of [register]: whenever it raises, the dictionary is
    left as it was; and for a function that has signatures it returns
    exactly when none of them is a key of the dictionary. *)
Theorem register_outcome fn d :
  (∀ e d', register fn d = (Raise e, d') → d' = d) ∧
  (∀ signatures, get_signatures fn = Ok signatures →
     ((∃ d', register fn d = (Ok (), d')) ↔
      ∀ signature, signature ∈ signatures → signature ∉ d.*1)).
Proof.
  split.
  - intros e d' Hrun. destruct (get_signatures fn) as [signatures|e'] eqn:Hsigs.
    + destruct (register_run fn d signatures Hsigs)
        as [(s & r & _ & _ & Hr)|[_ Hr]]; rewrite Hr in Hrun; by simplify_eq.
    + rewrite (register_raise fn d e' Hsigs) in Hrun. by simplify_eq.
  - intros signatures Hsigs. split.
    + intros [d' Hrun]. apply register_Ok in Hrun as (sigs & Hsigs' & Hnew & _).
      by assert (sigs = signatures) as -> by congruence.
    + intros Hnew. destruct (register_run fn d signatures Hsigs)
        as [(s & r & Hs & Hget & _)|[_ Hr]]; [|by eexists].
      destruct (Hnew s Hs). apply dict_get_Some in Hget.
      by apply (list_elem_of_fmap_2 fst) in Hget.
Qed.

(** X6. Registration and lookup: after a [register] call that returned,
    looking up a signature of the function gives the function, and looking
    up any other key gives what it gave before the call. *)
Theorem register_then_get fn d d' :
  reachable d → register fn d = (Ok (), d') →
  ∃ signatures,
    get_signatures fn = Ok signatures ∧
    ∀ key, dict_get d' key =
           if decide (key ∈ signatures) then Some fn else dict_get d key.
Proof.
  intros Hd Hrun.
  destruct (register_Ok_get fn d d' (reachable_NoDup d Hd) Hrun)
    as (signatures & Hsigs & _ & Hget).
  by exists signatures.
Qed.

Lemma register_step_get d d' key fn :
  NoDup d.*1 → register_step d d' → dict_get d key = Some fn →
  dict_get d' key = Some fn ∧ NoDup d'.*1.
Proof.
  intros Hnodup [fn' Hrun] Hget. split; [|by eapply register_NoDup].
  destruct (register_Ok_get fn' d d' Hnodup Hrun) as (signatures & _ & Hnew & ->).
  case_decide as Hkey; [|done]. destruct (Hnew key Hkey).
  apply dict_get_Some in Hget. by apply (list_elem_of_fmap_2 fst) in Hget.
Qed.

(** X7. A function once registered under a signature stays registered
    under it: no later registration removes or replaces the entry. *)
Theorem registered_for_good d d' key fn :
  reachable d → rtc register_step d d' →
  dict_get d key = Some fn → dict_get d' key = Some fn.
Proof.
  intros Hd%reachable_NoDup Hsteps. revert Hd.
  induction Hsteps as [d|d d1 d2 Hstep _ IH]; intros Hnodup Hget; [done|].
  destruct (register_step_get d d1 key fn Hnodup Hstep Hget) as [Hget1 Hnodup1].
  by apply IH.
Qed.

(** X8. Registering a function a second time raises the [TypeError] of
    multiple definitions, which names the function twice, provided it has
    at least one signature. *)
Theorem register_twice fn d d' :
  reachable d → register fn d = (Ok (), d') →
  get_signatures fn ≠ Ok [] →
  register fn d' = (Raise (TypeError_multiple_definitions fn fn), d').
Proof.
  intros Hd Hrun Hne.
  destruct (register_Ok_get fn d d' (reachable_NoDup d Hd) Hrun)
    as (signatures & Hsigs & _ & Hget).
  destruct (register_run fn d' signatures Hsigs)
    as [(s & r & Hs & Hgets & Hr)|[Hnew _]].
  - rewrite Hget in Hgets. rewrite decide_True in Hgets by done.
    by injection Hgets as <-.
  - destruct signatures as [|s signatures]; [done|].
    assert (s ∈ s :: signatures) as Hs by (apply elem_of_cons; by left).
    pose proof (Hnew s Hs) as Hnone. apply dict_get_None in Hnone.
    rewrite Hget, decide_True in Hnone by done. done.
Qed.

End RegistrationFacts.

(** ** Registration and the order of the entries *)

Section Linearization.
Context {type : Type} `{Classes type}.
Implicit Types (d items : dict type) (fn : Callable type).
Implicit Types (key signature : Signature type).


End Linearization.

(** ** Parameters without a class, from registration to resolution *)

Section Unannotated.
Context {type : Type} `{Classes type}.
Implicit Types (d : dict type) (fn : Callable type).
Implicit Types (a : annotation type) (args : list (annotation type)).

Lemma unpack_signatures_members a args :
  Forall (λ b, members b ≠ []) (a :: args) →
  unpack_signatures a args = Ok (cartesian (a :: args)).
Proof.
  revert a. induction args as [|a' args IH]; intros a [Ha Hargs]%Forall_cons; simpl.
  - rewrite unpack_types_members by done. simpl. by apply for_yield_total.
  - rewrite unpack_types_members by done. simpl. apply for_yield_total.
    intros t _. by rewrite IH.
Qed.

Lemma cartesian_nonempty args :
  Forall (λ b, members b ≠ []) args → cartesian args ≠ [].
Proof.
  intros Hall Hnil. apply (f_equal length) in Hnil.
  rewrite cartesian_length in Hnil. simpl in Hnil.
  induction Hall as [|a args Ha _ IH]; simpl in Hnil; [done|].
  apply Nat.eq_mul_0 in Hnil as [Hnil|Hnil]; [|by apply IH].
  unfold spec_size in Hnil. by destruct (members a).
Qed.

Lemma get_signatures_nonempty fn signatures :
  get_signatures fn = Ok signatures →
  Forall (λ h, members (param_type h) ≠ []) (fn_hints fn) →
  signatures ≠ [].
Proof.
  unfold get_signatures, unpack_signatures_star. intros Hrun Hall.
  change (map param_type (fn_hints fn)) with (param_type <$> fn_hints fn) in Hrun.
  assert (Forall (λ b, members b ≠ []) (param_type <$> fn_hints fn)) as Hall'
    by by apply Forall_fmap.
  clear Hall. destruct (param_type <$> fn_hints fn) as [|a args]; [done|].
  rewrite unpack_signatures_members in Hrun by done. injection Hrun as <-.
  by apply (cartesian_nonempty (a :: args)).
Qed.

(** C9. A parameter without a type hint, or with the hint [Any], counts
    as one declared with the class [object]: replacing such hints by
    [object] does not change the signatures of the function. When the
    function is registered, its signatures (there is at least one as long
    as every parameter stands for some class) are keys of the dictionary
    mapped to the function and have [object] at the position of that
    parameter; and in resolution, whatever the class of the argument at
    that position, the test that [__call__] makes of such an entry goes on
    succeeding, so that the call is handed to an entry and does not
    raise. *)
Theorem unannotated_is_object `{!ClassLaws type} fn d d' i h :
  reachable d →
  register fn d = (Ok (), d') →
  fn_hints fn !! i = Some h → unannotated h →
  (∀ fn',
     Forall2 (λ h h', h' = h ∨ (unannotated h ∧ h' = Some (HAnn (AClass object))))
       (fn_hints fn) (fn_hints fn') →
     get_signatures fn' = get_signatures fn) ∧
  ∃ signatures,
    get_signatures fn = Ok signatures ∧
    (Forall (λ h, members (param_type h) ≠ []) (fn_hints fn) → signatures ≠ []) ∧
    ∀ S, S ∈ signatures →
      S !! i = Some object ∧
      dict_get d' S = Some fn ∧
      ∀ (args : list type) (arg : type), matches args S →
        negb (length S =? length (<[i:=arg]> args)) = false ∧
        all (zip_with isinstance (<[i:=arg]> args) S) = true ∧
        ∃ k entry, d' !! k = Some entry ∧ matches (<[i:=arg]> args) entry.1 ∧
          __call__ (<[i:=arg]> args) d' = (Ok entry.2, d').
Proof.
  intros Hd Hrun Hi Hh. split.
  - intros fn' Hhints. unfold get_signatures. f_equal.
    clear Hi. revert Hhints. generalize (fn_hints fn) (fn_hints fn').
    intros hs hs' Hhints.
    induction Hhints as [|h0 h' hs hs' Hh0 _ IH]; simpl; [done|]. f_equal; [|done].
    destruct Hh0 as [->|[Hh0 ->]]; [done|]. by rewrite (param_type_unannotated h0).
  - destruct (register_Ok_get fn d d' (reachable_NoDup d Hd) Hrun)
      as (signatures & Hsigs & _ & Hget).
    exists signatures. split; [done|].
    split; [by apply get_signatures_nonempty|].
    intros S HS.
    assert (S !! i = Some object) as HSi.
    { destruct (get_signatures_Ok_inv fn signatures S Hsigs HS) as [_ Hall].
      destruct (Forall2_lookup_r _ _ _ _ _ Hall Hi) as (t & Ht & ts & Hts & Htin).
      rewrite param_type_unannotated in Hts by done. simpl in Hts.
      injection Hts as <-. by apply list_elem_of_singleton in Htin as ->. }
    split; [done|]. split; [by rewrite Hget, decide_True|].
    intros args arg Hmatch.
    pose proof (matches_insert args S i arg HSi Hmatch) as Hmatch'.
    apply call_test_matches in Hmatch' as Htest. destruct Htest as [Hlen Hall].
    split; [done|]. split; [done|].
    assert (dict_get d' S = Some fn) as HgetS by by rewrite Hget, decide_True.
    apply dict_get_Some, list_elem_of_lookup in HgetS as [j Hj].
    destruct (call_at_or_before (<[i:=arg]> args) d' j (S, fn) Hj Hmatch')
      as (k & entry & _ & Hk & Hentry & Hcall).
    by exists k, entry.
Qed.

End Unannotated.

(** C9 at work: [foo_any], whose first parameter has the hint [Any] and
    whose second parameter has none, registered on the dictionary of the
    docstring. *)
Lemma unannotated_is_object_witness :
  ∃ signatures,
    get_signatures foo_any = Ok signatures ∧
    signatures ≠ [] ∧
    ∀ S, S ∈ signatures →
      S !! 1 = Some Object ∧
      dict_get foo_any_dict S = Some foo_any ∧
      ∀ (args : list pyclass) (arg : pyclass), matches args S →
        ∃ k entry, foo_any_dict !! k = Some entry ∧
          matches (<[1:=arg]> args) entry.1 ∧
          __call__ (<[1:=arg]> args) foo_any_dict = (Ok entry.2, foo_any_dict).
Proof.
  destruct (unannotated_is_object foo_any foo_dict foo_any_dict 1 None
              foo_dict_reachable eq_refl eq_refl (or_introl eq_refl))
    as (_ & signatures & Hsigs & Hne & Hall).
  exists signatures. split; [exact Hsigs|]. split.
  - apply Hne. repeat constructor; discriminate.
  - intros S HS. destruct (Hall S HS) as (HSi & Hget & Hcall).
    split; [exact HSi|]. split; [exact Hget|].
    intros args arg Hmatch. destruct (Hcall args arg Hmatch) as (_ & _ & Hk).
    exact Hk.
Defined.



(** ** Which entry a call goes to *)

Section DispatchFacts.
Context {type : Type} `{Classes type}.
Implicit Types (d : dict type) (fn : Callable type) (args : list type).
Implicit Types (key signature S T : Signature type).

Lemma call_Ok_first_match args d fn :
  __call__ args d = (Ok fn, d) →
  ∃ i S, d !! i = Some (S, fn) ∧ matches args S ∧
    ∀ j entry, j < i → d !! j = Some entry → ¬ matches args entry.1.
Proof.
  rewrite call_unfold. pose proof (call_loop_first_match args d) as Hloop.
  destruct (call_loop args d) as [fn'|]; [|done]. by intros [= <-].
Qed.

Lemma call_most_specific_entry `{!TransitiveSubclass type} d args fn :
  reachable d → __call__ args d = (Ok fn, d) →
  ∃ i S, d !! i = Some (S, fn) ∧ matches args S ∧
    ∀ T, T ∈ d.*1 → matches args T → Signature_lt T S = false.
Proof.
  intros Hd (i & S & Hi & HS & Hfirst)%call_Ok_first_match.
  exists i, S. split; [done|]. split; [done|]. intros T HT HmT.
  destruct (Signature_lt T S) eqn:Hlt; [exfalso|done].
  apply list_elem_of_lookup in HT as [j Hj].
  pose proof (ascending_linearization d (reachable_ascending d Hd)) as Hlin.
  assert (j < i) as Hji.
  { apply (Hlin j i T S); [done | by rewrite list_lookup_fmap, Hi | done]. }
  apply list_lookup_fmap_Some in Hj as ([T' fT] & Hj & ?). simplify_eq/=.
  by apply (Hfirst j (T', fT)).
Qed.

(** X9. Provided [issubclass] is transitive on the classes in use: on a
    dictionary built by registrations, the entry a call is handed to is a
    most specific one, no entry that matches the call is strictly less
    than it. *)
Theorem call_most_specific `{!TransitiveSubclass type} d args fn :
  reachable d → __call__ args d = (Ok fn, d) →
  ∃ i S, d !! i = Some (S, fn) ∧ matches args S ∧
    ∀ T, T ∈ d.*1 → matches args T → Signature_lt T S = false.
Proof. apply call_most_specific_entry. Qed.

Lemma call_least_entry `{!TransitiveSubclass type} d args S fn :
  reachable d → (S, fn) ∈ d → matches args S →
  (∀ T, T ∈ d.*1 → matches args T → T = S ∨ Signature_lt S T = true) →
  __call__ args d = (Ok fn, d).
Proof.
  intros Hd HS HmS Hleast.
  apply list_elem_of_lookup in HS as [j Hj].
  destruct (call_at_or_before args d j (S, fn) Hj HmS)
    as (k & [T fT] & Hk & HT & HmT & ->).
  simpl in *. f_equal. f_equal.
  assert (T ∈ d.*1) as HTd.
  { apply (list_elem_of_fmap_2 fst d (T, fT)). by eapply list_elem_of_lookup_2. }
  destruct (Hleast T HTd HmT) as [->|Hlt].
  - assert (dict_get d S = Some fT) as HgT.
    { apply dict_get_elem; [by apply reachable_NoDup|]. by eapply list_elem_of_lookup_2. }
    assert (dict_get d S = Some fn) as HgS.
    { apply dict_get_elem; [by apply reachable_NoDup|]. by eapply list_elem_of_lookup_2. }
    congruence.
  - exfalso.
    pose proof (ascending_linearization d (reachable_ascending d Hd)) as Hlin.
    assert (j < k); [|lia].
    apply (Hlin j k S T); [by rewrite list_lookup_fmap, Hj | by rewrite list_lookup_fmap, HT | done].
Qed.

(** X10. Provided [issubclass] is transitive on the classes in use: on a
    dictionary built by registrations, when one matching entry is strictly
    less than every other matching entry, the call is handed to its
    function. *)
Theorem call_least_match `{!TransitiveSubclass type} d args S fn :
  reachable d → (S, fn) ∈ d → matches args S →
  (∀ T, T ∈ d.*1 → matches args T → T = S ∨ Signature_lt S T = true) →
  __call__ args d = (Ok fn, d).
Proof. apply call_least_entry. Qed.

Lemma supercedes_antisym `{!ClassAntisym type} S T :
  length S = length T →
  supercedes S T = true → supercedes T S = true → S = T.
Proof.
  intros Hlen HST HTS.
  apply all_zip_with_Forall2 in HST; [|done].
  apply all_zip_with_Forall2 in HTS; [|done].
  apply list_eq_same_length with (length S); [done | done |].
  intros i a b _ Ha Hb.
  destruct (Forall2_lookup_l _ _ _ _ _ HST Ha) as (b' & Hb' & Hab).
  destruct (Forall2_lookup_l _ _ _ _ _ HTS Hb) as (a' & Ha' & Hba).
  simplify_eq. by apply issubclass_antisym.
Qed.

Lemma matches_lt `{!ClassAntisym type} S T :
  matches S T → T = S ∨ Signature_lt S T = true.
Proof.
  intros [Hlen Hall]. destruct (decide (T = S)) as [|Hne]; [by left|]. right.
  apply Signature_lt_true. split; [done|]. split.
  - by apply all_zip_with_Forall2.
  - destruct (supercedes T S) eqn:HTS; [|done]. destruct Hne.
    apply supercedes_antisym; [done | done |]. by apply all_zip_with_Forall2.
Qed.

(** X11. Provided [issubclass] is transitive and antisymmetric on the
    classes in use: on a dictionary built by registrations, a call whose
    arguments have exactly the classes of a registered signature is handed
    to the function registered under that signature. *)
Theorem call_exact `{!ClassLaws type} `{!TransitiveSubclass type}
    `{!ClassAntisym type} d S fn :
  reachable d → (S, fn) ∈ d → __call__ S d = (Ok fn, d).
Proof.
  intros Hd HS. apply (call_least_entry d S S fn); [done | done | |].
  - split; [done|]. apply Forall2_same_length_lookup. split; [done|].
    intros i a b Ha Hb. simplify_eq. apply issubclass_refl.
  - intros T _ HT. by apply matches_lt.
Qed.

Lemma call_loop_arity args d :
  call_loop args d =
  call_loop args (filter (λ e, length e.1 = length args) d).
Proof.
  induction d as [|[S fn] d IH]; [done|].
  cbn [call_loop]. destruct (Nat.eqb_spec (length S) (length args)) as [Hlen|Hlen].
  - rewrite filter_cons_True by done. cbn [call_loop negb].
    rewrite (proj2 (Nat.eqb_eq _ _) Hlen). cbn [negb].
    by destruct (all (zip_with isinstance args S)).
  - rewrite filter_cons_False by done. done.
Qed.

(** X12. Entries of another arity play no part in a call: the call has
    the same outcome on the dictionary restricted to the entries that have
    as many positions as there are arguments. *)
Theorem call_same_arity_only args d :
  (__call__ args d).1 =
  (__call__ args (filter (λ e, length e.1 = length args) d)).1.
Proof. rewrite !call_unfold, <- call_loop_arity. by destruct (call_loop args d). Qed.

Lemma reachable_arity d :
  reachable d → Forall (λ signature, 1 ≤ length signature) d.*1.
Proof.
  assert (∀ fn d d', NoDup d.*1 →
            Forall (λ signature, 1 ≤ length signature) d.*1 →
            register fn d = (Ok (), d') →
            Forall (λ signature, 1 ≤ length signature) d'.*1) as Hstep.
  { intros fn d0 d' Hnodup Hd Hrun.
    destruct (register_Ok_keys fn d0 d' Hnodup Hrun)
      as (signatures & Hsigs & _ & _ & Hkeys & _).
    apply Forall_forall. intros key [Hold|Hnew]%Hkeys.
    - rewrite Forall_forall in Hd. by apply Hd.
    - destruct (get_signatures_Ok_inv fn signatures key Hsigs Hnew) as [Hne Hall].
      apply Forall2_length in Hall. rewrite Hall.
      destruct (fn_hints fn); [done | simpl; lia]. }
  induction 1 as [fn d Hinit|fn d d' Hd IH Hrun].
  - eapply (Hstep fn []); [constructor | constructor | done].
  - eapply Hstep; [by apply reachable_NoDup | done | done].
Qed.

(** X13. A call without arguments always raises the [TypeError] of no
    implementation, whatever has been registered. *)
Theorem call_without_arguments d :
  reachable d →
  __call__ [] d = (Raise (TypeError_no_implementations []), d).
Proof.
  intros Hd. rewrite call_unfold.
  pose proof (call_loop_first_match [] d) as Hloop.
  destruct (call_loop [] d) as [fn|]; [exfalso|done].
  destruct Hloop as (i & S & Hi & [Hlen _] & _).
  pose proof (reachable_arity d Hd) as Harity. rewrite Forall_forall in Harity.
  assert (1 ≤ length S); [|simpl in Hlen; lia].
  apply Harity, (list_elem_of_fmap_2 fst d (S, fn)). by eapply list_elem_of_lookup_2.
Qed.

Lemma matches_objects `{!ClassLaws type} args :
  matches args (replicate (length args) object).
Proof.
  split; [by rewrite length_replicate|].
  apply Forall2_same_length_lookup. split; [by rewrite length_replicate|].
  intros i a b _ [-> _]%lookup_replicate. apply issubclass_object.
Qed.

(** X14. Once a function all of whose parameters are [object] (or
    without annotation) is registered, no call with that many arguments
    raises: it is handed to an entry that matches. *)
Theorem call_with_catch_all `{!ClassLaws type} d args :
  replicate (length args) object ∈ d.*1 →
  ∃ S fn, (S, fn) ∈ d ∧ matches args S ∧ __call__ args d = (Ok fn, d).
Proof.
  intros (i & Hi)%list_elem_of_lookup.
  apply list_lookup_fmap_Some in Hi as ([O fO] & HO & Hi). simpl in HO. subst O.
  destruct (call_at_or_before args d i (replicate (length args) object, fO) Hi
              (matches_objects args))
    as (k & [S fn] & _ & Hk & HS & Hcall).
  exists S, fn. split; [by eapply list_elem_of_lookup_2 | done].
Qed.

Lemma lt_objects `{!ClassLaws type} `{!ClassAntisym type} T :
  T ≠ replicate (length T) object →
  Signature_lt T (replicate (length T) object) = true.
Proof.
  intros Hne. apply Signature_lt_true.
  split; [by rewrite length_replicate|]. split.
  - apply supercedes_lookup. intros i a b _ [-> _]%lookup_replicate.
    apply issubclass_object.
  - destruct (supercedes (replicate (length T) object) T) eqn:Hsup; [|done].
    destruct Hne. apply supercedes_antisym; [by rewrite length_replicate | | done].
    apply supercedes_lookup. intros i a b _ [-> _]%lookup_replicate.
    apply issubclass_object.
Qed.

(** A key of [object]s is never followed by another key of its arity. *)
Local Abbreviation objects_last :=
  (StronglySorted (λ X Y : Signature _,
     ¬ (X = replicate (length Y) object ∧ Y ≠ X))).

Lemma objects_not_lt `{!ClassLaws type} n T :
  Signature_lt (replicate n object) T = false.
Proof.
  destruct (Signature_lt (replicate n object) T) eqn:Hlt; [|done].
  apply Signature_lt_true in Hlt as (Hlen & _ & Hsup).
  rewrite length_replicate in Hlen. subst n.
  assert (supercedes T (replicate (length T) object) = true); [|congruence].
  apply supercedes_lookup. intros i a b _ [-> _]%lookup_replicate.
  apply issubclass_object.
Qed.

Lemma add_item_objects_last `{!ClassLaws type} `{!ClassAntisym type}
    (items : dict type) S fn :
  objects_last items.*1 → objects_last (add_item items (S, fn)).*1.
Proof.
  destruct (add_item_split items S fn)
    as (before & after & -> & -> & Hbefore & Hafter).
  rewrite !fmap_app, fmap_cons. simpl.
  rewrite !StronglySorted_app, StronglySorted_cons.
  intros (Hcross & Hb & Ha). split; [|split; [done|split; [|done]]].
  - intros X Y HX [->|HY]%elem_of_cons; [|by apply Hcross].
    intros [-> HSX].
    apply list_elem_of_fmap in HX as (e & He & Hin).
    rewrite Forall_forall in Hbefore. specialize (Hbefore e Hin).
    rewrite <- He in Hbefore. rewrite lt_objects in Hbefore; [done|].
    by intros Heq.
  - destruct after as [|item after]; [constructor|].
    apply Forall_forall. intros Y HY [HS _]. rewrite HS in Hafter.
    by rewrite objects_not_lt in Hafter.
Qed.

Lemma add_items_objects_last `{!ClassLaws type} `{!ClassAntisym type}
    (items new_items : dict type) :
  objects_last items.*1 → objects_last (fold_left add_item new_items items).*1.
Proof.
  revert items. induction new_items as [|[s fn] new_items IH]; intros items Hsorted;
    cbn [fold_left]; [done|].
  by apply IH, add_item_objects_last.
Qed.

Lemma dict_update_sorted (R : Signature type → Signature type → Prop)
    (acc items : dict type) :
  StronglySorted R (acc.*1 ++ items.*1) →
  StronglySorted R
    (fold_left (λ d item, dict_setitem d item.1 item.2) items acc).*1.
Proof.
  revert acc. induction items as [|[k v] items IH]; intros acc Hsorted; simpl in *.
  - by rewrite app_nil_r in Hsorted.
  - apply IH. rewrite dict_setitem_keys. case_decide.
    + apply StronglySorted_app in Hsorted
        as (Hcross & Hacc & [_ Hitems]%StronglySorted_cons).
      apply StronglySorted_app. split; [|done]. intros X Y HX HY.
      apply Hcross; [done|]. apply elem_of_cons. by right.
    + by rewrite <- app_assoc.
Qed.

Lemma reachable_objects_last `{!ClassLaws type} `{!ClassAntisym type} d :
  reachable d → objects_last d.*1.
Proof.
  assert (∀ fn d d', objects_last d.*1 → register fn d = (Ok (), d') →
            objects_last d'.*1) as Hstep.
  { intros fn d0 d' Hsorted (signatures & _ & _ & ->)%register_Ok.
    apply dict_update_sorted. simpl. by apply add_items_objects_last. }
  induction 1 as [fn d Hinit|fn d d' _ IH Hrun].
  - eapply Hstep; [|exact Hinit]. constructor.
  - by eapply Hstep.
Qed.

Lemma sorted_lookup {X : Type} (R : X → X → Prop) (l : list X) i j x y :
  StronglySorted R l → l !! i = Some x → l !! j = Some y → i < j → R x y.
Proof.
  intros Hsorted. revert i j.
  induction Hsorted as [|z l Hl IH Hz]; intros i j Hi Hj Hlt.
  - by rewrite lookup_nil in Hi.
  - destruct j as [|j]; [lia|]. simpl in Hj. destruct i as [|i]; simpl in Hi.
    + simplify_eq. rewrite Forall_forall in Hz. by eapply Hz, list_elem_of_lookup_2.
    + eapply IH; [done..|lia].
Qed.

(** X15. The entry of [object]s is the last resort. Provided
    [issubclass] is antisymmetric on the classes in use (transitivity is
    not needed): on a dictionary built by registrations, when another
    entry matches the call, the call is handed to an entry that is not the
    one of [object]s. *)
Theorem catch_all_last `{!ClassLaws type} `{!ClassAntisym type} d args T :
  reachable d → T ∈ d.*1 → matches args T →
  T ≠ replicate (length args) object →
  ∃ S fn, (S, fn) ∈ d ∧ S ≠ replicate (length args) object ∧
    matches args S ∧ __call__ args d = (Ok fn, d).
Proof.
  intros Hd (j & Hj)%list_elem_of_lookup HmT Hne.
  rewrite call_unfold. pose proof (call_loop_first_match args d) as Hloop.
  pose proof Hj as HjT.
  apply list_lookup_fmap_Some in Hj as ([T' fT] & HT' & Hj). simpl in HT'. subst T'.
  destruct (call_loop args d) as [fn|].
  - destruct Hloop as (i & S & Hi & HS & Hfirst). exists S, fn.
    split; [by eapply list_elem_of_lookup_2|]. split; [|done]. intros ->.
    destruct HmT as [HlenT HallT].
    assert (j < i) as Hji.
    { destruct (decide (j < i)) as [|Hge]; [done|]. exfalso.
      destruct (decide (j = i)) as [->|Hij]; [by simplify_eq|].
      apply (sorted_lookup _ d.*1 i j (replicate (length args) object) T
               (reachable_objects_last d Hd)); [|done|lia|].
      - by rewrite list_lookup_fmap, Hi.
      - split; [by rewrite HlenT | done]. }
    apply (Hfirst j (T, fT)); [done | done | by split].
  - destruct (Hloop (T, fT)); [by eapply list_elem_of_lookup_2 | done].
Qed.

End DispatchFacts.

(** ** The size of the dictionary, and a new dispatcher *)

Section Growth.
Context {type : Type} `{Classes type}.
Implicit Types (d items : dict type) (fn : Callable type).

Lemma add_items_keys_Permutation items (new_items : dict type) :
  (fold_left add_item new_items items).*1 ≡ₚ items.*1 ++ new_items.*1.
Proof.
  revert items. induction new_items as [|[s fn] new_items IH]; intros items;
    cbn [fold_left].
  - by rewrite app_nil_r.
  - rewrite IH. destruct (add_item_split items s fn) as (before & after & -> & -> & _).
    rewrite !fmap_app, !fmap_cons. simpl.
    rewrite <- (Permutation_middle before.*1 after.*1 s).
    by rewrite <- (Permutation_middle (before.*1 ++ after.*1) new_items.*1 s).
Qed.

(** X16. A registration that returns enlarges the dictionary by exactly
    the signatures of the function: for annotations that are classes or
    unions of distinct classes, the list of items holds no key twice, so
    that [dict(items)] is that list, and the number of entries grows by the
    product of the sizes of the annotations. *)
Theorem register_grows fn d d' :
  reachable d →
  Forall spec_wf (param_type <$> fn_hints fn) →
  register fn d = (Ok (), d') →
  ∃ signatures,
    get_signatures fn = Ok signatures ∧
    d' = fold_left add_item (map (λ signature, (signature, fn)) signatures) d ∧
    length d' = length d + product (spec_size <$> (param_type <$> fn_hints fn)).
Proof.
  intros Hd Hwf Hrun. pose proof (reachable_NoDup d Hd) as Hnodup.
  apply register_Ok in Hrun as (signatures & Hsigs & Hnew & ->).
  exists signatures. split; [done|].
  assert (NoDup signatures ∧
          length signatures = product (spec_size <$> (param_type <$> fn_hints fn)))
    as [Hsnodup Hlen].
  { unfold get_signatures, unpack_signatures_star in Hsigs.
    change (map param_type (fn_hints fn)) with (param_type <$> fn_hints fn) in Hsigs.
    destruct (param_type <$> fn_hints fn) as [|a specs] eqn:Hspecs; [done|].
    rewrite unpack_signatures_cartesian in Hsigs by done. injection Hsigs as <-.
    split; [by apply (cartesian_NoDup (a :: specs)) |
            apply (cartesian_length (a :: specs))]. }
  set (batch := map (λ signature, (signature, fn)) signatures).
  assert (NoDup (fold_left add_item batch d).*1) as Hitems.
  { rewrite add_items_keys_Permutation. unfold batch. rewrite batch_keys.
    apply NoDup_app. split; [done|]. split; [|done].
    intros key Hkey Hkey'. by apply (Hnew key). }
  unfold dict_of_items. rewrite dict_update_NoDup by done. split; [done|].
  rewrite <- Hlen. simpl.
  rewrite <- (length_fmap fst (fold_left add_item batch d)).
  rewrite add_items_keys_Permutation, length_app, !length_fmap.
  unfold batch. by rewrite length_map.
Qed.

(** X17. Building a dispatcher from a function that has signatures never
    raises, and the new dictionary maps exactly these signatures, each to
    the function. *)
Theorem multipledispatch_init fn signatures :
  get_signatures fn = Ok signatures →
  ∃ d,
    multipledispatch fn = (Ok (), d) ∧
    ∀ key, dict_get d key = if decide (key ∈ signatures) then Some fn else None.
Proof.
  intros Hsigs. unfold multipledispatch.
  destruct (register_run fn [] signatures Hsigs)
    as [(s & r & _ & Hget & _)|[_ Hrun]]; [done|].
  eexists. split; [exact Hrun|].
  destruct (register_Ok_get fn [] _ (NoDup_nil_2) Hrun)
    as (signatures' & Hsigs' & _ & Hget).
  by assert (signatures' = signatures) as -> by congruence.
Qed.

End Growth.

(** ** The further properties at work *)

Lemma foo_dict_elem (e : Signature pyclass * Callable pyclass) :
  e ∈ foo_dict ↔
  e = ([Str; Int], foo_str_int) ∨ e = ([Str; Str], foo_str_str) ∨
  e = ([Int; Int], foo_int_union) ∨ e = ([Int; Str], foo_int_union) ∨
  e = ([Object; Object], foo_object_object).
Proof.
  change foo_dict with
    [([Str; Int], foo_str_int); ([Str; Str], foo_str_str);
     ([Int; Int], foo_int_union); ([Int; Str], foo_int_union);
     ([Object; Object], foo_object_object)].
  rewrite !elem_of_cons, elem_of_nil. tauto.
Qed.

Lemma foo_dict_key (key : Signature pyclass) :
  key ∈ foo_dict.*1 ↔
  key = [Str; Int] ∨ key = [Str; Str] ∨ key = [Int; Int] ∨ key = [Int; Str] ∨
  key = [Object; Object].
Proof.
  change (foo_dict.*1) with
    [[Str; Int]; [Str; Str]; [Int; Int]; [Int; Str]; [Object; Object]].
  rewrite !elem_of_cons, elem_of_nil. tauto.
Qed.

Lemma register_then_get_witness :
  ∃ signatures,
    get_signatures by_animal = Ok signatures ∧
    ∀ key, dict_get foo_animal_dict key =
           if decide (key ∈ signatures) then Some by_animal
           else dict_get foo_dict key.
Proof.
  apply (register_then_get by_animal foo_dict foo_animal_dict foo_dict_reachable).
  reflexivity.
Defined.

Lemma registered_for_good_witness :
  dict_get foo_animal_dict [Str; Int] = Some foo_str_int.
Proof.
  apply (registered_for_good foo_dict foo_animal_dict [Str; Int] foo_str_int
           foo_dict_reachable).
  - apply rtc_once. by exists by_animal.
  - reflexivity.
Defined.

Lemma register_twice_witness :
  register by_animal foo_animal_dict =
    (Raise (TypeError_multiple_definitions by_animal by_animal), foo_animal_dict).
Proof.
  apply (register_twice by_animal foo_dict foo_animal_dict foo_dict_reachable).
  - reflexivity.
  - discriminate.
Defined.

Lemma call_most_specific_witness :
  ∃ i S,
    foo_dict !! i = Some (S, foo_int_union) ∧ matches [Bool; Str] S ∧
    ∀ T, T ∈ foo_dict.*1 → matches [Bool; Str] T → Signature_lt T S = false.
Proof.
  apply (call_most_specific foo_dict [Bool; Str] foo_int_union foo_dict_reachable).
  reflexivity.
Defined.

Lemma call_least_match_witness :
  __call__ [Bool; Str] foo_dict = (Ok foo_int_union, foo_dict).
Proof.
  apply (call_least_match foo_dict [Bool; Str] [Int; Str] foo_int_union
           foo_dict_reachable).
  - apply foo_dict_elem. tauto.
  - split; [reflexivity | repeat constructor].
  - intros T HT%foo_dict_key HmT%call_test_matches.
    destruct HT as [->|[->|[->|[->| ->]]]]; vm_compute in HmT;
      first [by left | by right | by destruct HmT].
Defined.

Lemma call_exact_witness :
  __call__ [Str; Str] foo_dict = (Ok foo_str_str, foo_dict).
Proof.
  apply (call_exact foo_dict [Str; Str] foo_str_str foo_dict_reachable).
  apply foo_dict_elem. tauto.
Defined.

Lemma call_without_arguments_witness :
  __call__ [] foo_dict = (Raise (TypeError_no_implementations []), foo_dict).
Proof. exact (call_without_arguments foo_dict foo_dict_reachable). Defined.

Lemma call_with_catch_all_witness :
  ∃ S fn,
    (S, fn) ∈ foo_dict ∧ matches [Int; Bool] S ∧
    __call__ [Int; Bool] foo_dict = (Ok fn, foo_dict).
Proof.
  apply (call_with_catch_all foo_dict [Int; Bool]).
  apply foo_dict_key. tauto.
Defined.

Lemma catch_all_last_witness :
  ∃ S fn,
    (S, fn) ∈ foo_dict ∧ S ≠ replicate (length [Str; Int]) Object ∧
    matches [Str; Int] S ∧ __call__ [Str; Int] foo_dict = (Ok fn, foo_dict).
Proof.
  apply (catch_all_last foo_dict [Str; Int] [Str; Int] foo_dict_reachable).
  - apply foo_dict_key. tauto.
  - split; [reflexivity | repeat constructor].
  - discriminate.
Defined.

Lemma register_grows_witness :
  ∃ signatures,
    get_signatures foo_int_union = Ok signatures ∧
    foo_dict =
      fold_left add_item
        (map (λ signature, (signature, foo_int_union)) signatures)
        [([Str; Int], foo_str_int); ([Str; Str], foo_str_str);
         ([Object; Object], foo_object_object)] ∧
    length foo_dict = 3 + 2.
Proof.
  apply (register_grows foo_int_union
           [([Str; Int], foo_str_int); ([Str; Str], foo_str_str);
            ([Object; Object], foo_object_object)] foo_dict).
  - eapply (registrations_reachable [foo_str_int; foo_str_str]);
      [apply (reachable_init foo_object_object
                [([Object; Object], foo_object_object)]) |];
      reflexivity.
  - repeat first [apply Forall_nil_2 | apply Forall_cons_2]; simpl;
      first [exact I | apply (bool_decide_unpack _); exact I].
  - reflexivity.
Defined.

Lemma multipledispatch_init_witness :
  ∃ d,
    multipledispatch foo_int_union = (Ok (), d) ∧
    ∀ key, dict_get d key =
           if decide (key ∈ [[Int; Int]; [Int; Str]]) then Some foo_int_union
           else None.
Proof.
  exact (multipledispatch_init foo_int_union [[Int; Int]; [Int; Str]] eq_refl).
Defined.
